(** * Comparison & Allocation Engine of the supermarket purchase helper

    A shallow embedding of the pure data-transformation logic found in the
    three pages of the application:

    - [src/app/compare/page.tsx]: [parsePrice], [stores] and the per-row
      best/worst highlighting of the comparison table;
    - [src/app/plan/page.tsx]: [parsePrice] and [planRows];
    - the split-lists page: [parsePrice], [stores], [cheapestGroups] and
      [availabilityGroups].

    JavaScript numbers are IEEE 754 binary64 values, modelled by the
    [spec_float] type of the standard library; strings are [string]; objects
    used as dictionaries, [Map]s and [Set]s are insertion-ordered association
    lists, because the code iterates over them and the iteration order is
    observable.  [String.prototype.localeCompare] is supplied by the host
    and is taken as a parameter. *)

From Stdlib Require Import ZArith List String Ascii Bool Lia.
From Stdlib Require Import Permutation Sorted.
From Stdlib Require Import Floats.
Import ListNotations.

Set Warnings "-inexact-float".

Local Open Scope string_scope.
Local Open Scope list_scope.
Local Open Scope Z_scope.

(** ** JavaScript numbers *)

Definition number : Type := spec_float.

Module JsNumber.

(** The Number value of a non-negative decimal [n / 10^k], rounded to the
    nearest binary64 value, ties to even; zero is [+0]. *)
Definition ofDecimal (n : Z) (k : nat) : number :=
  match n, 10 ^ Z.of_nat k with
  | Zpos p, Zpos q =>
      SFdiv prec emax (S754_finite false p 0) (S754_finite false q 0)
  | _, _ => S754_zero false
  end.

(** [Number.isFinite] *)
Definition isFinite (x : number) : bool :=
  match x with
  | S754_zero _ | S754_finite _ _ _ => true
  | S754_infinity _ | S754_nan => false
  end.

(** [x < y] and [x === y] on numbers *)
Definition lt (x y : number) : bool := SFltb x y.
Definition strictEq (x y : number) : bool := SFeqb x y.

(** [Math.min(...values)] and [Math.max(...values)]: the running extremum
    starts at the opposite infinity; a NaN argument makes the result NaN
    and [-0] is smaller than [+0]. *)
Definition minStep (lowest v : number) : number :=
  match lowest, v with
  | S754_nan, _ | _, S754_nan => S754_nan
  | S754_zero false, S754_zero true => v
  | _, _ => if lt v lowest then v else lowest
  end.

Definition maxStep (highest v : number) : number :=
  match highest, v with
  | S754_nan, _ | _, S754_nan => S754_nan
  | S754_zero true, S754_zero false => v
  | _, _ => if lt highest v then v else highest
  end.

Definition Math_min (values : list number) : number :=
  fold_left minStep values (S754_infinity false).

Definition Math_max (values : list number) : number :=
  fold_left maxStep values (S754_infinity true).

(** The numbers [parsePrice] can return: [+0] and the positive finite
    values. *)
Definition isPrice (x : number) : bool :=
  match x with
  | S754_zero false | S754_finite false _ _ => true
  | _ => false
  end.

End JsNumber.

(** ** Strings *)

(** A string used as a condition is true when it is not empty. *)
Definition truthy (s : string) : bool :=
  match s with
  | EmptyString => false
  | String _ _ => true
  end.

Definition isDigit (c : ascii) : bool :=
  let n := nat_of_ascii c in (48 <=? n)%nat && (n <=? 57)%nat.

(** The characters the class [[^0-9.]] does not match. *)
Definition isDigitOrDot (c : ascii) : bool :=
  isDigit c || Ascii.eqb c ".".

(** [value.replace(/[^0-9.]/g, "")].  A character outside ASCII is encoded
    by code units none of which is a digit or a dot, so it is removed
    whatever the encoding. *)
Fixpoint stripNoise (value : string) : string :=
  match value with
  | EmptyString => EmptyString
  | String c rest =>
      if isDigitOrDot c then String c (stripNoise rest) else stripNoise rest
  end.

(** The longest prefix made of decimal digits, and what follows it. *)
Fixpoint spanDigits (s : string) : string * string :=
  match s with
  | EmptyString => (EmptyString, EmptyString)
  | String c rest =>
      if isDigit c
      then let (ds, tl) := spanDigits rest in (String c ds, tl)
      else (EmptyString, s)
  end.

Definition digitValue (c : ascii) : Z := Z.of_nat (nat_of_ascii c) - 48.

(** The mathematical value of a sequence of decimal digits. *)
Fixpoint digitsMV (acc : Z) (ds : string) : Z :=
  match ds with
  | EmptyString => acc
  | String c rest => digitsMV (10 * acc + digitValue c) rest
  end.

(** [Number.parseFloat] on a string without leading white space, sign or
    exponent: the longest prefix that is a decimal literal ([digits],
    [digits.], [digits.digits] or [.digits]) is converted; without such a
    prefix the result is NaN.  The conversion is the exact one, rounded to
    nearest; for a literal of more than twenty significant digits
    ECMAScript also lets an engine round the literal cut at its twentieth
    digit, which engines do not do. *)
Definition parseFloat (s : string) : number :=
  let (intPart, rest) := spanDigits s in
  let integerOnly :=
    match intPart with
    | EmptyString => S754_nan
    | _ => JsNumber.ofDecimal (digitsMV 0 intPart) 0
    end in
  match rest with
  | EmptyString => integerOnly
  | String c rest' =>
      if Ascii.eqb c "."
      then
        let (fracPart, _) := spanDigits rest' in
        match intPart, fracPart with
        | EmptyString, EmptyString => S754_nan
        | _, _ =>
            JsNumber.ofDecimal (digitsMV 0 (intPart ++ fracPart)%string)
                               (String.length fracPart)
        end
      else integerOnly
  end.

(** [parsePrice], identical in the three pages.  [None] stands for [null]
    in the result and for [null] or [undefined] in the argument. *)
Definition parsePrice (value : option string) : option number :=
  match value with
  | None => None
  | Some value =>
      if negb (truthy value) then None
      else
        let cleaned := stripNoise value in
        if negb (truthy cleaned) then None
        else
          let num := parseFloat cleaned in
          if JsNumber.isFinite num then Some num else None
  end.

(** Vocabulary for the statements about [parsePrice]. *)

Fixpoint hasDigit (s : string) : bool :=
  match s with
  | EmptyString => false
  | String c rest => isDigit c || hasDigit rest
  end.

Fixpoint allDigits (s : string) : bool :=
  match s with
  | EmptyString => true
  | String c rest => isDigit c && allDigits rest
  end.

(** A cleaned text starts with a decimal literal when it starts with a
    digit, or with a point that a digit follows. *)
Definition startsWithLiteral (cleaned : string) : bool :=
  match cleaned with
  | EmptyString => false
  | String c rest =>
      isDigit c ||
      (Ascii.eqb c "." &&
       match rest with
       | EmptyString => false
       | String d _ => isDigit d
       end)
  end.

(** ** Arrays, sets, maps and objects *)

Section ArraySort.
Context {A : Type}.
Variable compareFn : A -> A -> Z.

(** [Array.prototype.sort] is a stable sort: with a consistent comparison
    function its result is the one of this insertion sort, in which an
    element stays in front of the later elements it compares equal to. *)
Fixpoint insertSorted (x : A) (sorted : list A) : list A :=
  match sorted with
  | [] => [x]
  | y :: rest =>
      if compareFn x y <=? 0 then x :: sorted
      else y :: insertSorted x rest
  end.

Definition sort (l : list A) : list A := fold_right insertSorted [] l.
End ArraySort.

(** [new Set<string>()]: elements are kept in insertion order. *)
Module JsSet.
Definition t : Type := list string.
Definition empty : t := [].
Definition has (x : string) (s : t) : bool := existsb (String.eqb x) s.
Definition add (x : string) (s : t) : t := if has x s then s else s ++ [x].
Definition toArray (s : t) : list string := s.
End JsSet.

(** [new Map<string, V>()]: entries are kept in the order in which their
    keys were first set. *)
Module JsMap.
Definition t (V : Type) : Type := list (string * V).
Definition empty {V : Type} : t V := [].

Fixpoint get {V : Type} (k : string) (m : t V) : option V :=
  match m with
  | [] => None
  | (k', v) :: rest => if String.eqb k' k then Some v else get k rest
  end.

Fixpoint set {V : Type} (k : string) (v : V) (m : t V) : t V :=
  match m with
  | [] => [(k, v)]
  | (k', v') :: rest =>
      if String.eqb k' k then (k', v) :: rest else (k', v') :: set k v rest
  end.

Definition entries {V : Type} (m : t V) : list (string * V) := m.
Definition values {V : Type} (m : t V) : list V := map snd m.
End JsMap.

(** A [Record<string, V>]: the own properties of the object in the order
    in which [Object.keys] and [Object.entries] enumerate them. *)
Module JsObject.
Definition t (V : Type) : Type := list (string * V).
Definition keys {V : Type} (o : t V) : list string := map fst o.
Definition entries {V : Type} (o : t V) : list (string * V) := o.

Fixpoint get {V : Type} (o : t V) (k : string) : option V :=
  match o with
  | [] => None
  | (k', v) :: rest => if String.eqb k' k then Some v else get rest k
  end.
End JsObject.

(** [a ?? b] *)
Definition orElse {A : Type} (a : option A) (b : A) : A :=
  match a with
  | Some x => x
  | None => b
  end.

(** ** The data model *)

Module ApiStorePrice.
Record t : Type := mk {
  price : string;
  unit_price : option string;
  source_url : option string;
  scraped_at : option string
}.
End ApiStorePrice.

(** [prices_by_store] is read through [?? {}] and [?.]: a missing mapping
    behaves as the empty object, which is how it is represented here. *)
Module ApiCompareRow.
Record t : Type := mk {
  product_key : string;
  name : string;
  packaging_format : option string;
  image : option string;
  prices_by_store : JsObject.t ApiStorePrice.t
}.
End ApiCompareRow.

Module GroupedItem.
Record t : Type := mk {
  product_key : string;
  name : string;
  packaging_format : option string;
  image : option string;
  store : string;
  priceText : option string;
  priceNumber : option number
}.
End GroupedItem.

Module StoreGroup.
Record t : Type := mk {
  store : string;
  items : list GroupedItem.t
}.
End StoreGroup.

(** [bestPriceText], the rendering of [bestPriceNumber] by [toFixed(2)], is
    presentation and is not part of the record. *)
Module PlanRow.
Record t : Type := mk {
  product_key : string;
  name : string;
  packaging_format : option string;
  image : option string;
  bestPriceNumber : option number;
  supermarkets : list string
}.
End PlanRow.

(** [cell?.price] for [cell = row.prices_by_store?.[store]] *)
Definition cellPrice (row : ApiCompareRow.t) (store : string) : option string :=
  option_map ApiStorePrice.price
             (JsObject.get (ApiCompareRow.prices_by_store row) store).

(** [parsePrice(row.prices_by_store?.[store]?.price)] *)
Definition priceAt (row : ApiCompareRow.t) (store : string) : option number :=
  parsePrice (cellPrice row store).

(** ** The comparison table: best and worst prices of a row *)

(** The flags of one cell of the comparison table. *)
Module Highlight.
Record t : Type := mk {
  store : string;
  isBest : bool;
  isWorst : bool
}.
End Highlight.

(** The map [numericByStore] of a row: the listed stores that have a
    parseable price, with that price. *)
Definition numericByStore (stores : list string) (row : ApiCompareRow.t)
  : JsMap.t number :=
  fold_left
    (fun numericByStore store =>
       match priceAt row store with
       | Some priceNumber => JsMap.set store priceNumber numericByStore
       | None => numericByStore
       end)
    stores JsMap.empty.

(** The cells of a row, one per listed store. *)
Definition highlightRow (stores : list string) (row : ApiCompareRow.t)
  : list Highlight.t :=
  let numericByStore := numericByStore stores row in
  let values := JsMap.values numericByStore in
  let min :=
    match values with [] => None | _ => Some (JsNumber.Math_min values) end in
  let max :=
    match values with [] => None | _ => Some (JsNumber.Math_max values) end in
  let highlightWorst :=
    match min, max with
    | Some min, Some max => negb (JsNumber.strictEq min max)
    | _, _ => false
    end in
  map
    (fun store =>
       let priceNumber := JsMap.get store numericByStore in
       let isBest :=
         match min, priceNumber with
         | Some min, Some priceNumber => JsNumber.strictEq priceNumber min
         | _, _ => false
         end in
       let isWorst :=
         highlightWorst &&
         match max, priceNumber with
         | Some max, Some priceNumber => JsNumber.strictEq priceNumber max
         | _, _ => false
         end in
       Highlight.mk store isBest isWorst)
    stores.

(** ** The pages *)

(** The variables of the loop of [cheapestGroups] over the stores of a
    row. *)
Module Best.
Record t : Type := mk {
  bestStore : option string;
  bestPrice : option number;
  bestPriceText : option string
}.
End Best.

Section Engine.

Variable localeCompare : string -> string -> Z.

(** *** The sorted list of store names (compare and split-lists pages) *)

Definition stores (rows : list ApiCompareRow.t) : list string :=
  let set :=
    fold_left
      (fun set row =>
         fold_left
           (fun set storeName =>
              if truthy storeName then JsSet.add storeName set else set)
           (JsObject.keys (ApiCompareRow.prices_by_store row)) set)
      rows JsSet.empty in
  sort localeCompare (JsSet.toArray set).

(** The rows of the comparison table. *)
Definition compareTable (rows : list ApiCompareRow.t) : list (list Highlight.t) :=
  map (highlightRow (stores rows)) rows.

(** *** The plan page *)

(** The first loop of [planRows]: the lowest parseable price of the row. *)
Definition planBest (row : ApiCompareRow.t) : option number :=
  fold_left
    (fun best entry =>
       match parsePrice (Some (ApiStorePrice.price (snd entry))) with
       | None => best
       | Some priceNumber =>
           match best with
           | None => Some priceNumber
           | Some b => if JsNumber.lt priceNumber b then Some priceNumber else best
           end
       end)
    (JsObject.entries (ApiCompareRow.prices_by_store row)) None.

(** The second loop: the stores whose price is the lowest one. *)
Definition planSupermarkets (row : ApiCompareRow.t) (best : option number)
  : list string :=
  match best with
  | None => []
  | Some best =>
      fold_left
        (fun supermarkets entry =>
           match parsePrice (Some (ApiStorePrice.price (snd entry))) with
           | Some priceNumber =>
               if JsNumber.strictEq priceNumber best
               then supermarkets ++ [fst entry]
               else supermarkets
           | None => supermarkets
           end)
        (JsObject.entries (ApiCompareRow.prices_by_store row)) []
  end.

Definition planRow (row : ApiCompareRow.t) : PlanRow.t :=
  let best := planBest row in
  let supermarkets := sort localeCompare (planSupermarkets row best) in
  PlanRow.mk (ApiCompareRow.product_key row) (ApiCompareRow.name row)
             (ApiCompareRow.packaging_format row) (ApiCompareRow.image row)
             best supermarkets.

Definition planRows (rows : list ApiCompareRow.t) : list PlanRow.t :=
  map planRow rows.

(** *** The split-lists page: cheapest store *)

Definition cheapestStep (row : ApiCompareRow.t) (best : Best.t) (store : string)
  : Best.t :=
  match priceAt row store with
  | None => best
  | Some priceNumber =>
      if match Best.bestPrice best with
         | None => true
         | Some bestPrice => JsNumber.lt priceNumber bestPrice
         end
      then Best.mk (Some store) (Some priceNumber) (cellPrice row store)
      else best
  end.

Definition cheapestOfRow (row : ApiCompareRow.t) : Best.t :=
  fold_left (cheapestStep row)
            (JsObject.keys (ApiCompareRow.prices_by_store row))
            (Best.mk None None None).

(** The item of a row, or [None] when the loop goes on to the next row:
    [!bestStore] holds for [null] and for the empty string. *)
Definition cheapestItem (row : ApiCompareRow.t) : option GroupedItem.t :=
  let best := cheapestOfRow row in
  match Best.bestStore best with
  | None => None
  | Some bestStore =>
      if negb (truthy bestStore) then None
      else
        Some (GroupedItem.mk
                (ApiCompareRow.product_key row) (ApiCompareRow.name row)
                (ApiCompareRow.packaging_format row) (ApiCompareRow.image row)
                bestStore (Best.bestPriceText best) (Best.bestPrice best))
  end.

(** [byStore.set(store, [...(byStore.get(store) ?? []), item])] *)
Definition pushItem (byStore : JsMap.t (list GroupedItem.t))
           (store : string) (item : GroupedItem.t)
  : JsMap.t (list GroupedItem.t) :=
  JsMap.set store (orElse (JsMap.get store byStore) [] ++ [item]) byStore.

Definition toGroups (byStore : JsMap.t (list GroupedItem.t))
  : list StoreGroup.t :=
  map (fun entry => StoreGroup.mk (fst entry) (snd entry))
      (JsMap.entries byStore).

Definition cheapestByStore (rows : list ApiCompareRow.t)
  : JsMap.t (list GroupedItem.t) :=
  fold_left
    (fun byStore row =>
       match cheapestItem row with
       | None => byStore
       | Some item => pushItem byStore (GroupedItem.store item) item
       end)
    rows JsMap.empty.

Definition cheapestGroups (rows : list ApiCompareRow.t) : list StoreGroup.t :=
  sort (fun a b => localeCompare (StoreGroup.store a) (StoreGroup.store b))
       (toGroups (cheapestByStore rows)).

(** *** The split-lists page: availability *)

Definition availabilityCount (rows : list ApiCompareRow.t) (stores : list string)
  : JsMap.t Z :=
  let availabilityCount :=
    fold_left (fun m store => JsMap.set store 0 m) stores JsMap.empty in
  fold_left
    (fun m row =>
       fold_left
         (fun m store =>
            match priceAt row store with
            | Some _ => JsMap.set store (orElse (JsMap.get store m) 0 + 1) m
            | None => m
            end)
         stores m)
    rows availabilityCount.

Definition rankedStores (rows : list ApiCompareRow.t) (stores : list string)
  : list string :=
  let availabilityCount := availabilityCount rows stores in
  sort
    (fun a b =>
       let diff :=
         orElse (JsMap.get b availabilityCount) 0
         - orElse (JsMap.get a availabilityCount) 0 in
       if negb (diff =? 0) then diff else localeCompare a b)
    stores.

(** The first ranked store with a parseable price for the row. *)
Definition chosenStore (rankedStores : list string) (row : ApiCompareRow.t)
  : option string :=
  find (fun store => match priceAt row store with Some _ => true | None => false end)
       rankedStores.

Definition availabilityItem (rankedStores : list string) (row : ApiCompareRow.t)
  : option GroupedItem.t :=
  match chosenStore rankedStores row with
  | None => None
  | Some chosenStore =>
      if negb (truthy chosenStore) then None
      else
        Some (GroupedItem.mk
                (ApiCompareRow.product_key row) (ApiCompareRow.name row)
                (ApiCompareRow.packaging_format row) (ApiCompareRow.image row)
                chosenStore (cellPrice row chosenStore) (priceAt row chosenStore))
  end.

Definition availabilityByStore (rows : list ApiCompareRow.t)
           (rankedStores : list string)
  : JsMap.t (list GroupedItem.t) :=
  let byStore :=
    fold_left (fun m store => JsMap.set store [] m) rankedStores JsMap.empty in
  fold_left
    (fun byStore row =>
       match availabilityItem rankedStores row with
       | None => byStore
       | Some item => pushItem byStore (GroupedItem.store item) item
       end)
    rows byStore.

Definition availabilityGroupsOf (rows : list ApiCompareRow.t)
           (stores : list string) : list StoreGroup.t :=
  let rankedStores := rankedStores rows stores in
  filter (fun group => negb (Nat.eqb (List.length (StoreGroup.items group)) 0))
         (toGroups (availabilityByStore rows rankedStores)).

(** [availabilityGroups] is computed from [rows] and the [stores] of the
    same rows. *)
Definition availabilityGroups (rows : list ApiCompareRow.t) : list StoreGroup.t :=
  availabilityGroupsOf rows (stores rows).

End Engine.

(** ** The same computations over allocated [Map] objects

    In the source the maps [byStore] and [availabilityCount] are objects
    created by [new Map()] and updated in place.  Here they live in a heap
    that is threaded through the computation, so that what a run leaves
    behind is there when the next run starts. *)

Module Imperative.

Inductive object : Type :=
| ItemsMap (m : JsMap.t (list GroupedItem.t))
| CountMap (m : JsMap.t Z).

Definition heap : Type := list object.
Definition ref : Type := nat.

Definition M (A : Type) : Type := heap -> A * heap.

Definition ret {A : Type} (a : A) : M A := fun h => (a, h).

Definition bind {A B : Type} (c : M A) (k : A -> M B) : M B :=
  fun h => let (a, h') := c h in k a h'.

Notation "x <- c ;; k" := (bind c (fun x => k))
  (at level 61, c at next level, right associativity).
Notation "c ;;; k" := (bind c (fun _ => k))
  (at level 61, right associativity).

(** Replaces the object at an address; nothing happens outside the heap. *)
Fixpoint store (r : ref) (o : object) (h : heap) : heap :=
  match h, r with
  | [], _ => []
  | _ :: rest, O => o :: rest
  | o' :: rest, S r' => o' :: store r' o rest
  end.

(** [new Map()] *)
Definition newItemsMap : M ref :=
  fun h => (List.length h, h ++ [ItemsMap JsMap.empty]).

Definition newCountMap : M ref :=
  fun h => (List.length h, h ++ [CountMap JsMap.empty]).

Definition itemsOf (r : ref) (h : heap) : JsMap.t (list GroupedItem.t) :=
  match nth_error h r with
  | Some (ItemsMap m) => m
  | _ => JsMap.empty
  end.

Definition countsOf (r : ref) (h : heap) : JsMap.t Z :=
  match nth_error h r with
  | Some (CountMap m) => m
  | _ => JsMap.empty
  end.

Definition itemsGet (r : ref) (k : string) : M (option (list GroupedItem.t)) :=
  fun h => (JsMap.get k (itemsOf r h), h).

Definition itemsSet (r : ref) (k : string) (v : list GroupedItem.t) : M unit :=
  fun h => (tt, store r (ItemsMap (JsMap.set k v (itemsOf r h))) h).

Definition itemsEntries (r : ref) : M (list (string * list GroupedItem.t)) :=
  fun h => (JsMap.entries (itemsOf r h), h).

Definition countGet (r : ref) (k : string) : M (option Z) :=
  fun h => (JsMap.get k (countsOf r h), h).

Definition countSet (r : ref) (k : string) (v : Z) : M unit :=
  fun h => (tt, store r (CountMap (JsMap.set k v (countsOf r h))) h).

(** The content of a count map, for the comparison function of [sort]. *)
Definition countSnapshot (r : ref) : M (JsMap.t Z) :=
  fun h => (countsOf r h, h).

(** [for (const x of l) body] *)
Fixpoint forEach {A : Type} (l : list A) (body : A -> M unit) : M unit :=
  match l with
  | [] => ret tt
  | x :: rest => body x ;;; forEach rest body
  end.

Section Policies.

Variable localeCompare : string -> string -> Z.

Definition cheapestGroups (rows : list ApiCompareRow.t) : M (list StoreGroup.t) :=
  byStore <- newItemsMap ;;
  forEach rows
    (fun row =>
       match cheapestItem row with
       | None => ret tt
       | Some item =>
           old <- itemsGet byStore (GroupedItem.store item) ;;
           itemsSet byStore (GroupedItem.store item) (orElse old [] ++ [item])
       end) ;;;
  entries <- itemsEntries byStore ;;
  ret (sort (fun a b => localeCompare (StoreGroup.store a) (StoreGroup.store b))
            (map (fun entry => StoreGroup.mk (fst entry) (snd entry)) entries)).

Definition availabilityGroups (rows : list ApiCompareRow.t) (stores : list string)
  : M (list StoreGroup.t) :=
  availabilityCount <- newCountMap ;;
  forEach stores (fun store => countSet availabilityCount store 0) ;;;
  forEach rows
    (fun row =>
       forEach stores
         (fun store =>
            match priceAt row store with
            | Some _ =>
                old <- countGet availabilityCount store ;;
                countSet availabilityCount store (orElse old 0 + 1)
            | None => ret tt
            end)) ;;;
  counts <- countSnapshot availabilityCount ;;
  let rankedStores :=
    sort
      (fun a b =>
         let diff :=
           orElse (JsMap.get b counts) 0 - orElse (JsMap.get a counts) 0 in
         if negb (diff =? 0) then diff else localeCompare a b)
      stores in
  byStore <- newItemsMap ;;
  forEach rankedStores (fun store => itemsSet byStore store []) ;;;
  forEach rows
    (fun row =>
       match availabilityItem rankedStores row with
       | None => ret tt
       | Some item =>
           old <- itemsGet byStore (GroupedItem.store item) ;;
           itemsSet byStore (GroupedItem.store item) (orElse old [] ++ [item])
       end) ;;;
  entries <- itemsEntries byStore ;;
  ret (filter
         (fun group => negb (Nat.eqb (List.length (StoreGroup.items group)) 0))
         (map (fun entry => StoreGroup.mk (fst entry) (snd entry)) entries)).

End Policies.

End Imperative.

(** ** Vocabulary of the statements *)

(** A comparison function is consistent when the sign of [compareFn a b]
    is opposite to the one of [compareFn b a] and "not after" is
    transitive; [sort] is specified for such functions only. *)
Record Consistent {A : Type} (compareFn : A -> A -> Z) : Prop := {
  consistent_antisym : forall a b, compareFn a b < 0 <-> 0 < compareFn b a;
  consistent_trans :
    forall a b c, compareFn a b <= 0 -> compareFn b c <= 0 -> compareFn a c <= 0
}.

(** A comparison function separates its arguments when only equal ones
    compare equal. *)
Definition Separating {A : Type} (compareFn : A -> A -> Z) : Prop :=
  forall a b, compareFn a b = 0 -> a = b.

(** The order of a list sorted by [compareFn]. *)
Definition Ascending {A : Type} (compareFn : A -> A -> Z) (l : list A) : Prop :=
  StronglySorted (fun a b => compareFn a b <= 0) l.

(** The comparison of strings by code units, a consistent and separating
    comparison function. *)
Definition codeUnitCompare (a b : string) : Z :=
  match String.compare a b with
  | Lt => -1
  | Eq => 0
  | Gt => 1
  end.

Definition hasPrice (row : ApiCompareRow.t) (store : string) : bool :=
  match priceAt row store with
  | Some _ => true
  | None => false
  end.

(** [store] is the first of the stores [l], in that order, at which the
    row has its lowest parseable price, [p]: the stores before it are
    dearer and the stores after it are not cheaper. *)
Definition FirstLowestIn (row : ApiCompareRow.t) (l : list string)
           (store : string) (p : number) : Prop :=
  exists before after,
    l = before ++ store :: after
    /\ priceAt row store = Some p
    /\ (forall t q, In t before -> priceAt row t = Some q -> JsNumber.lt p q = true)
    /\ (forall t q, In t after -> priceAt row t = Some q -> JsNumber.lt q p = false).

Definition FirstLowest (row : ApiCompareRow.t) (store : string) (p : number)
  : Prop :=
  FirstLowestIn row (JsObject.keys (ApiCompareRow.prices_by_store row)) store p.

(** [store] is the first of the stores [l] with a parseable price for the
    row. *)
Definition FirstAvailableIn (row : ApiCompareRow.t) (l : list string)
           (store : string) : Prop :=
  exists before after,
    l = before ++ store :: after
    /\ hasPrice row store = true
    /\ (forall t, In t before -> hasPrice row t = false).

(** The item a row contributes to the group of [store]. *)
Definition itemOf (row : ApiCompareRow.t) (store : string) : GroupedItem.t :=
  GroupedItem.mk
    (ApiCompareRow.product_key row) (ApiCompareRow.name row)
    (ApiCompareRow.packaging_format row) (ApiCompareRow.image row)
    store (cellPrice row store) (priceAt row store).

(** [o] is [Some s] *)
Definition isStore (o : option string) (s : string) : bool :=
  match o with
  | Some s' => String.eqb s' s
  | None => false
  end.

(** The number of rows with a parseable price at [store]. *)
Definition coverage (rows : list ApiCompareRow.t) (store : string) : Z :=
  Z.of_nat (List.length (filter (fun row => hasPrice row store) rows)).

(** [a] is ranked before [b]: it covers more rows or, covering as many,
    its name does not come after. *)
Definition RankedBefore (localeCompare : string -> string -> Z)
           (rows : list ApiCompareRow.t) (a b : string) : Prop :=
  coverage rows b < coverage rows a
  \/ (coverage rows a = coverage rows b /\ localeCompare a b <= 0).

(** The product keys of the items of all groups, group after group. *)
Definition assignedKeys (groups : list StoreGroup.t) : list string :=
  flat_map (fun g => map GroupedItem.product_key (StoreGroup.items g)) groups.

(** The row has no parseable price at any store. *)
Definition Unpriced (row : ApiCompareRow.t) : Prop :=
  forall store, priceAt row store = None.

(** [p] is the lowest, respectively the highest, of the parseable prices of
    the row at the stores that satisfy [listed]. *)
Definition LowestAmong (listed : string -> Prop) (row : ApiCompareRow.t)
           (p : number) : Prop :=
  (exists s, listed s /\ priceAt row s = Some p)
  /\ forall s q, listed s -> priceAt row s = Some q -> JsNumber.lt q p = false.

Definition HighestAmong (listed : string -> Prop) (row : ApiCompareRow.t)
           (p : number) : Prop :=
  (exists s, listed s /\ priceAt row s = Some p)
  /\ forall s q, listed s -> priceAt row s = Some q -> JsNumber.lt p q = false.

(** The stores with a name, the ones the pages list. *)
Definition Named (s : string) : Prop := truthy s = true.

(** ** The loops in closed form *)

(** The set built by the two loops of [stores], from a given set. *)
Definition storeSetFrom (set : JsSet.t) (rows : list ApiCompareRow.t) : JsSet.t :=
  fold_left
    (fun set row =>
       fold_left
         (fun set storeName =>
            if truthy storeName then JsSet.add storeName set else set)
         (JsObject.keys (ApiCompareRow.prices_by_store row)) set)
    rows set.

(** The items the loop over the rows pushes, in the order of the rows. *)
Definition picked (pick : ApiCompareRow.t -> option GroupedItem.t)
           (rows : list ApiCompareRow.t) : list GroupedItem.t :=
  flat_map (fun row => match pick row with Some item => [item] | None => [] end)
           rows.

(** Pushing a list of items, each to the group of its store. *)
Definition pushAll (items : list GroupedItem.t)
           (byStore : JsMap.t (list GroupedItem.t))
  : JsMap.t (list GroupedItem.t) :=
  fold_left (fun byStore item => pushItem byStore (GroupedItem.store item) item)
            items byStore.

(** The comparison function of [rankedStores], for given counts. *)
Definition rankCompare (count : string -> Z)
           (localeCompare : string -> string -> Z) (a b : string) : Z :=
  let diff := count b - count a in
  if negb (diff =? 0) then diff else localeCompare a b.

(** One step of the counting loop of [availabilityCount]. *)
Definition countStep (row : ApiCompareRow.t) (m : JsMap.t Z) (store : string)
  : JsMap.t Z :=
  match priceAt row store with
  | Some _ => JsMap.set store (orElse (JsMap.get store m) 0 + 1) m
  | None => m
  end.

(** [parsePrice(cell?.price)] for an entry [[store, cell]] of the mapping of
    a row. *)
Definition entryPrice (entry : string * ApiStorePrice.t) : option number :=
  parsePrice (Some (ApiStorePrice.price (snd entry))).

(** The entry has the price [best]. *)
Definition atPrice (best : number) (entry : string * ApiStorePrice.t) : bool :=
  match entryPrice entry with
  | Some priceNumber => JsNumber.strictEq priceNumber best
  | None => false
  end.

(** [best] is the lowest parseable price among the entries of the row. *)
Definition LowestEntry (row : ApiCompareRow.t) (best : number) : Prop :=
  (exists entry,
      In entry (JsObject.entries (ApiCompareRow.prices_by_store row))
      /\ entryPrice entry = Some best)
  /\ forall entry q,
      In entry (JsObject.entries (ApiCompareRow.prices_by_store row)) ->
      entryPrice entry = Some q -> JsNumber.lt q best = false.

(** ** Sample data *)

Definition sampleCell (price : string) : ApiStorePrice.t :=
  ApiStorePrice.mk price None None None.

Definition sampleRow (key : string) (prices : list (string * string))
  : ApiCompareRow.t :=
  ApiCompareRow.mk key key None None
                   (map (fun sp => (fst sp, sampleCell (snd sp))) prices).

(** Two products and two stores: the first product is cheaper at B, the
    second costs the same at both; A has no price for the third. *)
Definition sampleRows : list ApiCompareRow.t :=
  [ sampleRow "P1" [("A", "$5.00"); ("B", "$3.00")];
    sampleRow "P2" [("A", "2"); ("B", "2.0")];
    sampleRow "P3" [("A", "n/a"); ("B", "4.25")] ].

(** A row whose lowest price is at a store without a name. *)
Definition unnamedStoreRow : ApiCompareRow.t :=
  sampleRow "P" [("", "1.00"); ("A", "2.00"); ("B", "3.00")].

(** A text of [n] digits 9. *)
Fixpoint nines (n : nat) : string :=
  match n with
  | O => EmptyString
  | S n' => String "9" (nines n')
  end.

(** The stores of the groups with the product keys of their items. *)
Definition outline (groups : list StoreGroup.t) : list (string * list string) :=
  map (fun g => (StoreGroup.store g,
                 map GroupedItem.product_key (StoreGroup.items g)))
      groups.

(** ** The home page: the list L1 and the suggestions *)

Module Product.
Record t : Type := mk {
  id : string;
  name : string;
  packagingFormat : option string;
  thumbnail : string
}.
End Product.

Module ApiProduct.
Record t : Type := mk {
  product_key : option string;
  name : string;
  packaging_format : option string;
  image : option string
}.
End ApiProduct.

(** [list.some((item) => item.id === id)] *)
Definition someId (list : list Product.t) (id : string) : bool :=
  existsb (fun item => String.eqb (Product.id item) id) list.

(** The update of the list by [addProduct]. *)
Definition addProduct (product : Product.t) (current : list Product.t)
  : list Product.t :=
  if someId current (Product.id product) then current
  else current ++ [product].

(** The update of the list by [removeProduct]. *)
Definition removeProduct (id : string) (current : list Product.t)
  : list Product.t :=
  filter (fun item => negb (String.eqb (Product.id item) id)) current.

(** A click on a suggestion or on a Remove button. *)
Inductive ListAction : Type :=
| Add (product : Product.t)
| Remove (id : string).

Definition applyAction (current : list Product.t) (action : ListAction)
  : list Product.t :=
  match action with
  | Add product => addProduct product current
  | Remove id => removeProduct id current
  end.

(** The list after a sequence of clicks, from the empty list the page
    starts with. *)
Definition listAfter (actions : list ListAction) : list Product.t :=
  fold_left applyAction actions [].

Section Home.

(** [String.prototype.toLowerCase] is supplied by the host. *)
Variable toLowerCase : string -> string.

(** [toId({ name, packagingFormat, productKey })] *)
Definition toId (name : string) (packagingFormat productKey : option string)
  : string :=
  let byName :=
    let suffix := orElse packagingFormat "" in
    toLowerCase (name ++ "__" ++ suffix)%string in
  match productKey with
  | Some key => if truthy key then toLowerCase key else byName
  | None => byName
  end.

(** The product made of an entry of the search response. *)
Definition toProduct (item : ApiProduct.t) : Product.t :=
  Product.mk
    (toId (ApiProduct.name item) (ApiProduct.packaging_format item)
          (ApiProduct.product_key item))
    (ApiProduct.name item)
    (ApiProduct.packaging_format item)
    (orElse (ApiProduct.image item) "/file.svg").

(** The suggestions computed from a search response: [mapped]. *)
Definition suggestionsFor (data : list ApiProduct.t) (listL1 : list Product.t)
  : list Product.t :=
  filter (fun product => negb (someId listL1 (Product.id product)))
         (map toProduct data).

End Home.

(** ** Restoring the list L1 from the local storage *)

Set Warnings "-register-all".

(** The values [JSON.parse] returns. *)
Inductive json : Type :=
| JNull
| JBool (b : bool)
| JNumber (x : number)
| JString (s : string)
| JArray (items : list json)
| JObject (fields : JsObject.t json).

(** A value used as a condition. *)
Definition jsonTruthy (v : json) : bool :=
  match v with
  | JNull => false
  | JBool b => b
  | JNumber (S754_zero _) | JNumber S754_nan => false
  | JNumber _ => true
  | JString s => truthy s
  | JArray _ | JObject _ => true
  end.

(** [item.id], [item.name], [item.packagingFormat] and [item.thumbnail] for
    a value other than [null]: only an object can have a property of one of
    these names; [None] stands for [undefined]. *)
Definition field (item : json) (name : string) : option json :=
  match item with
  | JObject fields => JsObject.get fields name
  | _ => None
  end.

(** [typeof v === "string"] *)
Definition isString (v : option json) : bool :=
  match v with
  | Some (JString _) => true
  | _ => false
  end.

(** The objects that [map] builds: their fields are whatever the stored
    value holds. *)
Module StoredProduct.
Record t : Type := mk {
  id : option json;
  name : option json;
  packagingFormat : option json;
  thumbnail : json
}.
End StoredProduct.

(** The condition of [filter]. *)
Definition isStoredProduct (item : json) : bool :=
  jsonTruthy item && isString (field item "id") && isString (field item "name").

(** [item.thumbnail ?? "/file.svg"] *)
Definition thumbnailOf (item : json) : json :=
  match field item "thumbnail" with
  | None | Some JNull => JString "/file.svg"
  | Some v => v
  end.

Definition toStoredProduct (item : json) : StoredProduct.t :=
  StoredProduct.mk (field item "id") (field item "name")
                   (field item "packagingFormat") (thumbnailOf item).

(** The list restored from a parsed value. *)
Definition restoreParsed (parsed : json) : list StoredProduct.t :=
  match parsed with
  | JArray items => map toStoredProduct (filter isStoredProduct items)
  | _ => []
  end.

Section Restore.

(** [JSON.parse] is supplied by the host; [None] stands for the exception
    it throws on a text that is not JSON. *)
Variable JSON_parse : string -> option json.

(** The list set by the first effect of the compare, plan and split-lists
    pages, for the text [raw] found under the key listL1. *)
Definition restoreListL1 (raw : option string) : list StoredProduct.t :=
  match raw with
  | None => restoreParsed (JArray [])
  | Some text =>
      if truthy text
      then match JSON_parse text with
           | Some parsed => restoreParsed parsed
           | None => []
           end
      else restoreParsed (JArray [])
  end.

End Restore.

(** [Boolean(v)] for a field *)
Definition fieldTruthy (v : option json) : bool :=
  match v with
  | Some v => jsonTruthy v
  | None => false
  end.

(** [listL1.map((p) => p.id).filter(Boolean)]: the keys of the request. *)
Definition requestKeys (listL1 : list StoredProduct.t) : list (option json) :=
  filter fieldTruthy (map StoredProduct.id listL1).

(** A stored list with entries of every kind. *)
Definition sampleStored : json :=
  JArray
    [ JObject [("id", JString "milk__1l"); ("name", JString "Milk");
               ("thumbnail", JNull)];
      JNull;
      JString "bread";
      JObject [("id", JNumber (S754_zero false)); ("name", JString "Eggs")];
      JObject [("id", JString ""); ("name", JString "Salt");
               ("packagingFormat", JString "1kg");
               ("thumbnail", JString "/salt.png")] ].

(** Sample products and a sample search response. *)
Definition sampleProduct (id name : string) : Product.t :=
  Product.mk id name None "/file.svg".

Definition sampleList : list Product.t :=
  [sampleProduct "milk__1l" "Milk"; sampleProduct "bread__" "Bread"].

Definition sampleResponse : list ApiProduct.t :=
  [ ApiProduct.mk (Some "milk__1l") "Milk" (Some "1l") None;
    ApiProduct.mk None "eggs" (Some "12") None ].

(** ** Names that compare equal, rows with the same key *)






(** Two rows with the same product key, priced at different stores. *)
Definition duplicateKeyRows : list ApiCompareRow.t :=
  [ sampleRow "P" [("A", "1.00")];
    sampleRow "P" [("B", "1.00")] ].

(** * Proofs *)

(** ** The examples of the specification, evaluated *)

Example policyA_lowest_price_and_first_on_tie :
  outline
    (cheapestGroups codeUnitCompare
       [ sampleRow "P1" [("A", "5"); ("B", "3")];
         sampleRow "P2" [("B", "2"); ("A", "2")] ])
  = [("B", ["P1"; "P2"])].
Proof. vm_compute. reflexivity. Qed.

Example policyA_sample :
  outline (cheapestGroups codeUnitCompare sampleRows)
  = [("A", ["P2"]); ("B", ["P1"; "P3"])].
Proof. vm_compute. reflexivity. Qed.

Example policyB_coverage_ranking :
  let rows := [ sampleRow "P1" [("A", "5"); ("B", "3")];
                sampleRow "P2" [("B", "2")];
                sampleRow "P3" [("A", "1")] ] in
  rankedStores codeUnitCompare rows (stores codeUnitCompare rows) = ["A"; "B"]
  /\ outline (availabilityGroups codeUnitCompare rows)
     = [("A", ["P1"; "P3"]); ("B", ["P2"])].
Proof. vm_compute. auto. Qed.

Example policyB_sample :
  rankedStores codeUnitCompare sampleRows (stores codeUnitCompare sampleRows)
  = ["B"; "A"]
  /\ outline (availabilityGroups codeUnitCompare sampleRows)
     = [("B", ["P1"; "P2"; "P3"])].
Proof. vm_compute. auto. Qed.

Example highlight_ties_and_single_price :
  let tied := sampleRow "P" [("A", "3.00"); ("B", "3.00"); ("C", "5.00")] in
  let single := sampleRow "Q" [("A", "3.00")] in
  let unpriced := sampleRow "R" [("A", "-")] in
  compareTable codeUnitCompare [tied; single; unpriced]
  = [ [ Highlight.mk "A" true false; Highlight.mk "B" true false;
        Highlight.mk "C" false true ];
      [ Highlight.mk "A" true false; Highlight.mk "B" false false;
        Highlight.mk "C" false false ];
      [ Highlight.mk "A" false false; Highlight.mk "B" false false;
        Highlight.mk "C" false false ] ].
Proof. vm_compute. reflexivity. Qed.

Example plan_ties_listed_together :
  let planned := planRow codeUnitCompare (sampleRow "P2" [("B", "2"); ("A", "2.0")]) in
  PlanRow.bestPriceNumber planned = Some (Prim2SF 2)
  /\ PlanRow.supermarkets planned = ["A"; "B"].
Proof. vm_compute. auto. Qed.

(** The conversion of decimal texts agrees with the binary64 values the
    same literals denote. *)
Example parseFloat_rounds_to_nearest :
  parseFloat "0.1" = Prim2SF 0.1
  /\ parseFloat "0.30000000000000004" = Prim2SF 0.30000000000000004
  /\ parseFloat "0.000001" = Prim2SF 0.000001
  /\ parseFloat "9007199254740993" = Prim2SF 9007199254740992
  /\ parseFloat "123456789012345678901234567890" = Prim2SF 123456789012345678901234567890
  /\ parseFloat "1." = Prim2SF 1
  /\ parseFloat ".5" = Prim2SF 0.5
  /\ parseFloat "." = S754_nan
  /\ parseFloat (nines 400) = S754_infinity false.
Proof. vm_compute. repeat split. Qed.

(** ** Facts about numbers *)

Module NumberFacts.
Import JsNumber.

Lemma lt_irrefl (x : number) : isPrice x = true -> lt x x = false.
Proof.
  destruct x as [[]| | |[] m e]; simpl; try discriminate; intros _; auto.
  unfold lt, SFltb, SFcompare. rewrite Z.compare_refl.
  change (Pos.compare_cont Eq m m) with (Pos.compare m m).
  now rewrite Pos.compare_refl.
Qed.

Lemma lt_trans (x y z : number) :
  isPrice x = true -> isPrice y = true -> isPrice z = true ->
  lt x y = true -> lt y z = true -> lt x z = true.
Proof.
  destruct x as [[]| | |[] m1 e1]; simpl; try discriminate;
  destruct y as [[]| | |[] m2 e2]; simpl; try discriminate;
  destruct z as [[]| | |[] m3 e3]; simpl; try discriminate;
  intros _ _ _; unfold lt, SFltb, SFcompare; try discriminate; auto.
  change (Pos.compare_cont Eq m1 m2) with (Pos.compare m1 m2).
  change (Pos.compare_cont Eq m2 m3) with (Pos.compare m2 m3).
  change (Pos.compare_cont Eq m1 m3) with (Pos.compare m1 m3).
  destruct (Z.compare_spec e1 e2), (Z.compare_spec e2 e3), (Z.compare_spec e1 e3);
    try discriminate; try lia; auto;
  destruct (Pos.compare_spec m1 m2), (Pos.compare_spec m2 m3), (Pos.compare_spec m1 m3);
    try discriminate; try lia; auto.
Qed.

Lemma lt_connex (x y : number) :
  isPrice x = true -> isPrice y = true ->
  lt x y = false -> lt y x = false -> x = y.
Proof.
  destruct x as [[]| | |[] m1 e1]; simpl; try discriminate;
  destruct y as [[]| | |[] m2 e2]; simpl; try discriminate;
  intros _ _; unfold lt, SFltb, SFcompare; try discriminate; auto.
  change (Pos.compare_cont Eq m1 m2) with (Pos.compare m1 m2).
  change (Pos.compare_cont Eq m2 m1) with (Pos.compare m2 m1).
  destruct (Z.compare_spec e1 e2), (Z.compare_spec e2 e1);
    try discriminate; try lia;
  destruct (Pos.compare_spec m1 m2), (Pos.compare_spec m2 m1);
    try discriminate; try lia; intros; subst; f_equal; lia.
Qed.

Lemma lt_asym (x y : number) :
  isPrice x = true -> isPrice y = true -> lt x y = true -> lt y x = false.
Proof.
  intros Hx Hy Hxy. destruct (lt y x) eqn:Hyx; auto.
  pose proof (lt_trans x y x Hx Hy Hx Hxy Hyx) as H.
  rewrite lt_irrefl in H; auto.
Qed.

(** [a <= b < c] gives [a < c] *)
Lemma le_lt_trans (x y z : number) :
  isPrice x = true -> isPrice y = true -> isPrice z = true ->
  lt y x = false -> lt y z = true -> lt x z = true.
Proof.
  intros Hx Hy Hz Hxy Hyz.
  destruct (lt x y) eqn:E.
  - apply (lt_trans x y z); auto.
  - rewrite (lt_connex x y); auto.
Qed.

Lemma lt_le_trans (x y z : number) :
  isPrice x = true -> isPrice y = true -> isPrice z = true ->
  lt x y = true -> lt z y = false -> lt x z = true.
Proof.
  intros Hx Hy Hz Hxy Hzy.
  destruct (lt y z) eqn:E.
  - apply (lt_trans x y z); auto.
  - rewrite <- (lt_connex y z); auto.
Qed.

Lemma le_trans (x y z : number) :
  isPrice x = true -> isPrice y = true -> isPrice z = true ->
  lt y x = false -> lt z y = false -> lt z x = false.
Proof.
  intros Hx Hy Hz Hxy Hyz.
  destruct (lt z x) eqn:E; auto.
  pose proof (lt_le_trans z x y Hz Hx Hy E Hxy) as H. congruence.
Qed.

Lemma strictEq_true_iff (x y : number) :
  isPrice x = true -> isPrice y = true ->
  strictEq x y = true <-> x = y.
Proof.
  intros Hx Hy. split.
  - intros H. apply lt_connex; auto;
      unfold strictEq, SFeqb, lt, SFltb in *.
    + destruct (SFcompare x y) as [[]|]; congruence.
    + destruct x as [[]| | |[] m1 e1]; simpl in *; try discriminate;
      destruct y as [[]| | |[] m2 e2]; simpl in *; try discriminate; auto.
      change (Pos.compare_cont Eq m1 m2) with (Pos.compare m1 m2) in H.
      change (Pos.compare_cont Eq m2 m1) with (Pos.compare m2 m1).
      rewrite (Z.compare_antisym e1 e2), (Pos.compare_antisym m1 m2).
      destruct (e1 ?= e2); simpl; try discriminate.
      destruct (m1 ?= m2)%positive; simpl; try discriminate. reflexivity.
  - intros ->. pose proof (lt_irrefl y Hy) as H.
    unfold strictEq, SFeqb, lt, SFltb in *.
    destruct y as [[]| | |[] m e]; simpl in *; try discriminate; auto.
    rewrite Z.compare_refl.
    change (Pos.compare_cont Eq m m) with (Pos.compare m m).
    now rewrite Pos.compare_refl.
Qed.

Lemma strictEq_refl (x : number) : isPrice x = true -> strictEq x x = true.
Proof. intros H. now apply strictEq_true_iff. Qed.

Lemma round_sign m e l :
  match binary_round_aux prec emax false m e l with
  | S754_zero s | S754_infinity s | S754_finite s _ _ => s = false
  | S754_nan => True
  end.
Proof.
  unfold binary_round_aux.
  destruct (shr_fexp prec emax m e l) as [mrs' e'].
  destruct (shr_fexp prec emax _ e' loc_Exact) as [mrs'' e''].
  destruct (shr_m mrs''); auto.
  destruct (e'' <=? emax - prec); auto.
Qed.

Lemma ofDecimal_sign n k :
  match ofDecimal n k with
  | S754_zero s | S754_infinity s | S754_finite s _ _ => s = false
  | S754_nan => True
  end.
Proof.
  unfold ofDecimal. destruct n; auto. destruct (10 ^ Z.of_nat k); auto.
  unfold SFdiv.
  destruct (SFdiv_core_binary prec emax (Z.pos p) 0 (Z.pos p0) 0) as [[mz ez] lz].
  apply round_sign.
Qed.

Lemma isFinite_ofDecimal_isPrice n k :
  isFinite (ofDecimal n k) = true -> isPrice (ofDecimal n k) = true.
Proof.
  pose proof (ofDecimal_sign n k) as H.
  destruct (ofDecimal n k); simpl; try discriminate; subst; auto.
Qed.

End NumberFacts.

(** ** The price normalizer *)

Lemma isDigit_not_dot c : isDigit c = true -> Ascii.eqb c "." = false.
Proof.
  intros H. destruct (Ascii.eqb_spec c "."); auto. subst. discriminate.
Qed.

Lemma stripNoise_app a b :
  stripNoise (a ++ b)%string = (stripNoise a ++ stripNoise b)%string.
Proof.
  induction a as [|c a IH]; simpl; auto.
  destruct (isDigitOrDot c); simpl; now rewrite IH.
Qed.

Lemma stripNoise_idem v : stripNoise (stripNoise v) = stripNoise v.
Proof.
  induction v as [|c v IH]; simpl; auto.
  destruct (isDigitOrDot c) eqn:E; simpl; auto. now rewrite E, IH.
Qed.

Lemma stripNoise_allDigits ds : allDigits ds = true -> stripNoise ds = ds.
Proof.
  induction ds as [|c ds IH]; simpl; auto.
  intros H. apply andb_prop in H as [Hc Hds].
  unfold isDigitOrDot. rewrite Hc. simpl. now rewrite IH.
Qed.

Lemma hasDigit_stripNoise v : hasDigit (stripNoise v) = hasDigit v.
Proof.
  induction v as [|c v IH]; simpl; auto.
  unfold isDigitOrDot. destruct (isDigit c) eqn:E; simpl.
  - now rewrite E.
  - destruct (Ascii.eqb c "."); simpl; now rewrite ?E, IH.
Qed.

Lemma truthy_stripNoise v : truthy (stripNoise v) = true -> truthy v = true.
Proof. destruct v; auto. Qed.

Lemma spanDigits_no_digit s :
  startsWithLiteral s = false -> fst (spanDigits s) = EmptyString.
Proof.
  destruct s as [|c s]; simpl; auto.
  intros H. apply orb_false_elim in H as [H _]. now rewrite H.
Qed.

Lemma spanDigits_app ds rest :
  allDigits ds = true ->
  match rest with EmptyString => true | String c _ => negb (isDigit c) end = true ->
  spanDigits (ds ++ rest)%string = (ds, rest).
Proof.
  intros Hds Hrest. induction ds as [|c ds IH]; simpl in *.
  - destruct rest as [|c rest]; auto. simpl.
    apply negb_true_iff in Hrest. now rewrite Hrest.
  - apply andb_prop in Hds as [Hc Hds]. rewrite Hc, IH; auto.
Qed.

Lemma parseFloat_no_literal cleaned :
  startsWithLiteral cleaned = false -> parseFloat cleaned = S754_nan.
Proof.
  intros H. unfold parseFloat.
  destruct cleaned as [|c rest]; simpl in *; auto.
  apply orb_false_elim in H as [Hc H]. rewrite Hc.
  destruct (Ascii.eqb c "."); auto. simpl in H.
  destruct rest as [|d rest']; simpl; auto.
  now rewrite H.
Qed.

Lemma startsWithLiteral_hasDigit s :
  hasDigit s = false -> startsWithLiteral s = false.
Proof.
  destruct s as [|c s]; simpl; auto.
  intros H. apply orb_false_elim in H as [Hc Hs]. rewrite Hc. simpl.
  destruct s as [|d s]; simpl in *.
  - apply andb_false_r.
  - apply orb_false_elim in Hs as [Hd _]. rewrite Hd. apply andb_false_r.
Qed.

Lemma parsePrice_stripped value :
  parsePrice (Some value) = parsePrice (Some (stripNoise value)).
Proof.
  unfold parsePrice. rewrite stripNoise_idem.
  destruct (truthy (stripNoise value)) eqn:E; simpl.
  - now rewrite (truthy_stripNoise _ E).
  - destruct (truthy value); reflexivity.
Qed.

Lemma parsePrice_cleaned value :
  truthy (stripNoise value) = true ->
  parsePrice (Some value) =
  if JsNumber.isFinite (parseFloat (stripNoise value))
  then Some (parseFloat (stripNoise value)) else None.
Proof.
  intros E. unfold parsePrice. now rewrite (truthy_stripNoise _ E), E.
Qed.

Lemma parsePrice_no_literal value :
  startsWithLiteral (stripNoise value) = false -> parsePrice (Some value) = None.
Proof.
  intros H. unfold parsePrice.
  destruct (truthy value); simpl; auto.
  destruct (truthy (stripNoise value)); simpl; auto.
  now rewrite parseFloat_no_literal.
Qed.

Lemma parsePrice_no_digit value :
  hasDigit value = false -> parsePrice (Some value) = None.
Proof.
  intros H. apply parsePrice_no_literal, startsWithLiteral_hasDigit.
  now rewrite hasDigit_stripNoise.
Qed.

Lemma parseFloat_isPrice s :
  JsNumber.isFinite (parseFloat s) = true -> JsNumber.isPrice (parseFloat s) = true.
Proof.
  unfold parseFloat.
  destruct (spanDigits s) as [intPart rest].
  assert (Hint : JsNumber.isFinite
                   match intPart with
                   | EmptyString => S754_nan
                   | String _ _ => JsNumber.ofDecimal (digitsMV 0 intPart) 0
                   end = true ->
                 JsNumber.isPrice
                   match intPart with
                   | EmptyString => S754_nan
                   | String _ _ => JsNumber.ofDecimal (digitsMV 0 intPart) 0
                   end = true).
  { destruct intPart; [discriminate|apply NumberFacts.isFinite_ofDecimal_isPrice]. }
  destruct rest as [|c rest']; auto.
  destruct (Ascii.eqb c "."); auto.
  destruct (spanDigits rest') as [fracPart tl].
  destruct intPart, fracPart; try discriminate;
    apply NumberFacts.isFinite_ofDecimal_isPrice.
Qed.

Lemma parsePrice_isPrice value x :
  parsePrice value = Some x -> JsNumber.isPrice x = true.
Proof.
  unfold parsePrice. destruct value as [value|]; [|discriminate].
  destruct (truthy value); simpl; [|discriminate].
  destruct (truthy (stripNoise value)); simpl; [|discriminate].
  destruct (JsNumber.isFinite (parseFloat (stripNoise value))) eqn:E; [|discriminate].
  intros [= <-]. now apply parseFloat_isPrice.
Qed.

Lemma parsePrice_finite value x :
  parsePrice value = Some x -> JsNumber.isFinite x = true.
Proof.
  intros H. apply parsePrice_isPrice in H. destruct x as [[]| | |[] ? ?]; auto.
Qed.

(** Everything from the second decimal point on is ignored. *)
Lemma parseFloat_second_point intPart fracPart rest :
  allDigits intPart = true -> allDigits fracPart = true ->
  parseFloat (intPart ++ "." ++ fracPart ++ "." ++ rest)%string =
  parseFloat (intPart ++ "." ++ fracPart)%string.
Proof.
  intros Hi Hf. unfold parseFloat.
  rewrite !(spanDigits_app intPart) by auto.
  change ("." ++ fracPart ++ "." ++ rest)%string
    with (String "." (fracPart ++ String "." rest)).
  change ("." ++ fracPart)%string with (String "." fracPart).
  cbv iota beta. change (Ascii.eqb "." ".") with true. cbv iota.
  rewrite (spanDigits_app fracPart (String "." rest)) by auto.
  replace (spanDigits fracPart) with (fracPart, EmptyString); auto.
  symmetry. replace fracPart with (fracPart ++ "")%string at 1.
  - now apply spanDigits_app.
  - clear. induction fracPart; simpl; congruence.

Qed.

Lemma stripNoise_dot a b :
  stripNoise (a ++ "." ++ b)%string = (stripNoise a ++ "." ++ stripNoise b)%string.
Proof. now rewrite stripNoise_app. Qed.

Lemma truthy_app_dot a b : truthy (a ++ "." ++ b)%string = true.
Proof. destruct a; reflexivity. Qed.

Lemma parsePrice_second_point intPart fracPart rest :
  allDigits intPart = true -> allDigits fracPart = true ->
  parsePrice (Some (intPart ++ "." ++ fracPart ++ "." ++ rest)%string) =
  parsePrice (Some (intPart ++ "." ++ fracPart)%string).
Proof.
  intros Hi Hf.
  rewrite !parsePrice_cleaned.
  - rewrite !stripNoise_dot, !stripNoise_allDigits by auto.
    now rewrite parseFloat_second_point.
  - rewrite stripNoise_dot. apply truthy_app_dot.
  - rewrite stripNoise_dot. apply truthy_app_dot.
Qed.

(** ** Lists *)

Lemma app_cons_split {A : Type} (b b' : list A) x x' a a' :
  b ++ x :: a = b' ++ x' :: a' ->
  (b = b' /\ x = x' /\ a = a')
  \/ (exists c, b' = b ++ x :: c /\ a = c ++ x' :: a')
  \/ (exists c, b = b' ++ x' :: c /\ a' = c ++ x :: a).
Proof.
  revert b'. induction b as [|y b IH]; intros [|y' b'] H; simpl in *.
  - injection H as E1 E2. subst. auto.
  - injection H as E1 E2. subst. right. left. eauto.
  - injection H as E1 E2. subst. right. right. eauto.
  - injection H as E1 H. subst y'.
    destruct (IH _ H) as [(E1 & E2 & E3)|[(c & E1 & E2)|(c & E1 & E2)]]; subst.
    + auto.
    + right. left. eauto.
    + right. right. eauto.
Qed.

Lemma NoDup_map_filter {A B : Type} (f : A -> B) (p : A -> bool) l :
  NoDup (map f l) -> NoDup (map f (filter p l)).
Proof.
  induction l as [|x l IH]; simpl; auto.
  intros H. inversion H as [|? ? Hx Hl]; subst.
  destruct (p x); simpl; auto. constructor; auto.
  intros Hin. apply Hx. apply in_map_iff in Hin as (y & <- & Hy).
  apply in_map. apply filter_In in Hy. tauto.
Qed.

Lemma NoDup_map_injective_on {A B : Type} (f : A -> B) l a b :
  NoDup (map f l) -> In a l -> In b l -> f a = f b -> a = b.
Proof.
  induction l as [|x l IH]; simpl; [tauto|].
  intros H Ha Hb E. inversion H as [|? ? Hx Hl]; subst.
  destruct Ha as [->|Ha], Hb as [->|Hb]; auto.
  - exfalso. apply Hx. rewrite E. now apply in_map.
  - exfalso. apply Hx. rewrite <- E. now apply in_map.
Qed.

Lemma filter_map_swap {A B : Type} (f : A -> B) (p : B -> bool) l :
  filter p (map f l) = map f (filter (fun x => p (f x)) l).
Proof.
  induction l as [|x l IH]; simpl; auto.
  destruct (p (f x)); simpl; now rewrite IH.
Qed.

Lemma StronglySorted_weaken {A : Type} (R R' : A -> A -> Prop) l :
  (forall a b, In a l -> In b l -> R a b -> R' a b) ->
  StronglySorted R l -> StronglySorted R' l.
Proof.
  intros H S. induction S as [|a l S IH F]; constructor.
  - apply IH. intros; apply H; simpl; auto.
  - rewrite Forall_forall in *. intros b Hb. apply H; simpl; auto.
Qed.

Lemma StronglySorted_map {A B : Type} (f : A -> B) (R : B -> B -> Prop) l :
  StronglySorted (fun a b => R (f a) (f b)) l -> StronglySorted R (map f l).
Proof.
  induction 1 as [|a l S IH F]; simpl; constructor; auto.
  rewrite Forall_forall in *. intros b Hb.
  apply in_map_iff in Hb as (x & <- & Hx). auto.
Qed.

(** ** Sorting *)

Section SortFacts.
Context {A : Type}.
Variable compareFn : A -> A -> Z.

Lemma insertSorted_perm x l : Permutation (insertSorted compareFn x l) (x :: l).
Proof.
  induction l as [|y l IH]; simpl; auto.
  destruct (compareFn x y <=? 0); auto.
  rewrite IH. apply perm_swap.
Qed.

Lemma sort_perm l : Permutation (sort compareFn l) l.
Proof.
  induction l as [|x l IH]; simpl; auto.
  rewrite insertSorted_perm. now constructor.
Qed.

Lemma sort_In x l : In x (sort compareFn l) <-> In x l.
Proof.
  split; apply Permutation_in; [|symmetry]; apply sort_perm.
Qed.

Lemma sort_NoDup l : NoDup l -> NoDup (sort compareFn l).
Proof.
  intros H. eapply Permutation_NoDup; [symmetry; apply sort_perm|auto].
Qed.

Hypothesis consistent : Consistent compareFn.

Lemma consistent_total a b : compareFn a b <= 0 \/ compareFn b a <= 0.
Proof.
  destruct (Z_le_gt_dec (compareFn a b) 0) as [H|H]; auto.
  right. assert (0 < compareFn a b) by lia.
  apply (consistent_antisym _ consistent) in H0. lia.
Qed.

Lemma consistent_zero a b : compareFn a b <= 0 -> compareFn b a <= 0 -> compareFn a b = 0.
Proof.
  intros H1 H2. destruct (Z.eq_dec (compareFn a b) 0) as [|N]; auto.
  assert (L : compareFn a b < 0) by lia.
  apply (consistent_antisym _ consistent) in L. lia.
Qed.

Lemma insertSorted_ascending x l :
  Ascending compareFn l -> Ascending compareFn (insertSorted compareFn x l).
Proof.
  unfold Ascending. induction 1 as [|y l S IH F]; simpl.
  - repeat constructor.
  - destruct (Z.leb_spec (compareFn x y) 0) as [H|H].
    + constructor; [constructor; auto|].
      constructor; auto. rewrite Forall_forall in *. intros z Hz.
      eapply (consistent_trans _ consistent); eauto.
    + constructor; auto. rewrite Forall_forall in *. intros z Hz.
      apply (Permutation_in _ (insertSorted_perm x l)) in Hz.
      destruct Hz as [<-|Hz]; auto.
      destruct (consistent_total y x); auto. lia.
Qed.

Lemma sort_ascending l : Ascending compareFn (sort compareFn l).
Proof.
  induction l as [|x l IH]; simpl.
  - constructor.
  - now apply insertSorted_ascending.
Qed.

Hypothesis separating : Separating compareFn.

Lemma ascending_unique l1 l2 :
  Ascending compareFn l1 -> Ascending compareFn l2 -> Permutation l1 l2 ->
  l1 = l2.
Proof.
  unfold Ascending. intros S1. revert l2.
  induction S1 as [|a l1 S1 IH F1]; intros l2 S2 P.
  - now apply Permutation_nil in P.
  - destruct S2 as [|b l2 S2 F2].
    + symmetry in P. now apply Permutation_nil in P.
    + rewrite Forall_forall in F1, F2.
      assert (Hab : a = b).
      { assert (Hb : In b (a :: l1))
          by (apply (Permutation_in _ (Permutation_sym P)); simpl; auto).
        assert (Ha : In a (b :: l2))
          by (apply (Permutation_in _ P); simpl; auto).
        destruct Hb as [|Hb]; auto. destruct Ha as [|Ha]; auto.
        apply separating, consistent_zero; auto. }
      subst b. f_equal. apply IH; auto.
      eapply Permutation_cons_inv; eauto.
Qed.

Lemma sort_permutation_invariant l1 l2 :
  Permutation l1 l2 -> sort compareFn l1 = sort compareFn l2.
Proof.
  intros P. apply ascending_unique; try apply sort_ascending.
  rewrite !sort_perm. exact P.
Qed.
End SortFacts.

Lemma Consistent_on {A B : Type} (f : A -> B) (compareFn : B -> B -> Z) :
  Consistent compareFn -> Consistent (fun a b => compareFn (f a) (f b)).
Proof.
  intros [Ha Ht]. split; intros; eauto.
Qed.

(** ** The comparison by code units *)

Lemma String_compare_refl a : String.compare a a = Eq.
Proof.
  induction a as [|c a IH]; simpl; auto.
  unfold Ascii.compare. now rewrite N.compare_refl.
Qed.

Lemma String_compare_trans_lt a b c :
  String.compare a b = Lt -> String.compare b c = Lt -> String.compare a c = Lt.
Proof.
  revert b c. induction a as [|x a IH]; intros [|y b] [|z c]; simpl; try discriminate; auto.
  unfold Ascii.compare.
  destruct (N.compare_spec (N_of_ascii x) (N_of_ascii y)) as [E1|L1|G1]; try discriminate;
  destruct (N.compare_spec (N_of_ascii y) (N_of_ascii z)) as [E2|L2|G2]; try discriminate;
  destruct (N.compare_spec (N_of_ascii x) (N_of_ascii z)) as [E3|L3|G3]; try lia; auto.
  all: try apply IH.
  all: intros; exfalso; try rewrite E1 in *; try rewrite E2 in *; lia.
Qed.

Lemma codeUnitCompare_consistent : Consistent codeUnitCompare.
Proof.
  split.
  - intros a b. unfold codeUnitCompare. rewrite (String.compare_antisym b a).
    destruct (String.compare a b); simpl; split; lia.
  - intros a b c. unfold codeUnitCompare.
    destruct (String.compare a b) eqn:E1; try lia;
    destruct (String.compare b c) eqn:E2; try lia; intros _ _.
    + apply String.compare_eq_iff in E1, E2. subst. rewrite String_compare_refl. lia.
    + apply String.compare_eq_iff in E1. subst. rewrite E2. lia.
    + apply String.compare_eq_iff in E2. subst. rewrite E1. lia.
    + rewrite (String_compare_trans_lt _ _ _ E1 E2). lia.
Qed.


(** ** Sets, maps and objects *)

Lemma truthy_false s : truthy s = false <-> s = "".
Proof. destruct s; simpl; split; congruence. Qed.

Lemma truthy_true s : truthy s = true <-> s <> "".
Proof. destruct s; simpl; split; congruence. Qed.

Module SetFacts.
Lemma has_In x s : JsSet.has x s = true <-> In x s.
Proof.
  unfold JsSet.has. rewrite existsb_exists. split.
  - intros (y & Hy & E). apply String.eqb_eq in E. now subst.
  - intros H. exists x. split; auto. apply String.eqb_refl.
Qed.

Lemma add_In x y s : In y (JsSet.add x s) <-> y = x \/ In y s.
Proof.
  unfold JsSet.add. destruct (JsSet.has x s) eqn:E.
  - apply has_In in E. split; auto. intros [->|]; auto.
  - rewrite in_app_iff. simpl. intuition.
Qed.

Lemma add_NoDup x s : NoDup s -> NoDup (JsSet.add x s).
Proof.
  intros H. unfold JsSet.add. destruct (JsSet.has x s) eqn:E; auto.
  apply NoDup_app; auto.
  - repeat constructor. simpl. tauto.
  - intros y Hy [<-|[]]. apply has_In in Hy. congruence.
Qed.
End SetFacts.

Module MapFacts.
Section WithValues.
Context {V : Type}.
Implicit Types (m : JsMap.t V) (k : string) (v : V).

Lemma get_set_same k v m : JsMap.get k (JsMap.set k v m) = Some v.
Proof.
  induction m as [|[k' v'] m IH]; simpl.
  - now rewrite String.eqb_refl.
  - destruct (String.eqb k' k) eqn:E; simpl; now rewrite E.
Qed.

Lemma get_set_other k k' v m :
  k <> k' -> JsMap.get k (JsMap.set k' v m) = JsMap.get k m.
Proof.
  intros N. induction m as [|[k0 v0] m IH]; simpl.
  - destruct (String.eqb_spec k' k); congruence.
  - destruct (String.eqb_spec k0 k'); simpl.
    + subst. destruct (String.eqb_spec k' k); congruence.
    + now rewrite IH.
Qed.

Lemma keys_set k v m :
  map fst (JsMap.set k v m) =
  if existsb (String.eqb k) (map fst m) then map fst m else map fst m ++ [k].
Proof.
  induction m as [|[k' v'] m IH]; simpl; auto.
  rewrite (String.eqb_sym k k').
  destruct (String.eqb k' k); simpl; auto.
  rewrite IH. destruct (existsb (String.eqb k) (map fst m)); auto.
Qed.

Lemma keys_set_has k v m :
  In k (map fst m) -> map fst (JsMap.set k v m) = map fst m.
Proof.
  intros H. rewrite keys_set.
  apply SetFacts.has_In in H. unfold JsSet.has in H. now rewrite H.
Qed.

Lemma keys_set_In k k' v m :
  In k (map fst (JsMap.set k' v m)) <-> k = k' \/ In k (map fst m).
Proof.
  rewrite keys_set. destruct (existsb (String.eqb k') (map fst m)) eqn:E.
  - apply (SetFacts.has_In k' (map fst m)) in E. split; auto. intros [->|]; auto.
  - rewrite in_app_iff. simpl. intuition.
Qed.

Lemma keys_set_NoDup k v m :
  NoDup (map fst m) -> NoDup (map fst (JsMap.set k v m)).
Proof.
  intros H. rewrite keys_set.
  change (NoDup (JsSet.add k (map fst m))). now apply SetFacts.add_NoDup.
Qed.

Lemma get_In k v m : JsMap.get k m = Some v -> In (k, v) m.
Proof.
  induction m as [|[k' v'] m IH]; simpl; [discriminate|].
  destruct (String.eqb_spec k' k).
  - intros [= ->]. subst. auto.
  - auto.
Qed.

Lemma get_None k m : JsMap.get k m = None <-> ~ In k (map fst m).
Proof.
  induction m as [|[k' v'] m IH]; simpl; [tauto|].
  destruct (String.eqb_spec k' k).
  - split; [discriminate|]. intros H. exfalso. auto.
  - rewrite IH. tauto.
Qed.

Lemma In_get k v m : NoDup (map fst m) -> In (k, v) m -> JsMap.get k m = Some v.
Proof.
  induction m as [|[k' v'] m IH]; simpl; [tauto|].
  intros H [E|Hin].
  - injection E as -> ->. now rewrite String.eqb_refl.
  - inversion H as [|? ? Hk Hm]; subst.
    destruct (String.eqb_spec k' k).
    + subst. exfalso. apply Hk. change k with (fst (k, v)). now apply in_map.
    + auto.
Qed.

(** A map is determined by its keys and the values found at them. *)
Lemma entries_by_keys (d : V) m :
  NoDup (map fst m) ->
  m = map (fun k => (k, orElse (JsMap.get k m) d)) (map fst m).
Proof.
  intros H. rewrite map_map.
  rewrite <- (map_id m) at 1. apply map_ext_in.
  intros [k v] Hin. simpl. now rewrite (In_get k v m H Hin).
Qed.
End WithValues.
End MapFacts.

Module ObjectFacts.
Lemma get_Some_keys {V : Type} (o : JsObject.t V) k v :
  JsObject.get o k = Some v -> In k (JsObject.keys o).
Proof.
  induction o as [|[k' v'] o IH]; simpl; [discriminate|].
  destruct (String.eqb_spec k' k); auto.
Qed.
End ObjectFacts.

Lemma priceAt_keys row s p :
  priceAt row s = Some p -> In s (JsObject.keys (ApiCompareRow.prices_by_store row)).
Proof.
  unfold priceAt, cellPrice.
  destruct (JsObject.get (ApiCompareRow.prices_by_store row) s) eqn:E; simpl.
  - intros _. eapply ObjectFacts.get_Some_keys; eauto.
  - discriminate.
Qed.

Lemma priceAt_isPrice row s p : priceAt row s = Some p -> JsNumber.isPrice p = true.
Proof. apply parsePrice_isPrice. Qed.

Lemma hasPrice_true row s : hasPrice row s = true <-> exists p, priceAt row s = Some p.
Proof.
  unfold hasPrice. destruct (priceAt row s); split; eauto; try discriminate.
  intros (p & H). discriminate.
Qed.

Lemma hasPrice_false row s : hasPrice row s = false <-> priceAt row s = None.
Proof.
  unfold hasPrice. destruct (priceAt row s); split; auto; discriminate.
Qed.

(** ** The list of stores *)

Lemma addNamed_In names set s :
  In s (fold_left (fun set storeName =>
                     if truthy storeName then JsSet.add storeName set else set)
                  names set)
  <-> In s set \/ (truthy s = true /\ In s names).
Proof.
  revert set. induction names as [|n names IH]; intros set; simpl.
  - tauto.
  - rewrite IH. destruct (truthy n) eqn:E.
    + rewrite SetFacts.add_In. split.
      * intros [[->|H]|[H1 H2]]; auto.
      * intros [H|[H1 [->|H2]]]; auto.
    + split.
      * intros [H|[H1 H2]]; auto.
      * intros [H|[H1 [->|H2]]]; auto. congruence.
Qed.

Lemma addNamed_NoDup names set :
  NoDup set ->
  NoDup (fold_left (fun set storeName =>
                      if truthy storeName then JsSet.add storeName set else set)
                   names set).
Proof.
  revert set. induction names as [|n names IH]; intros set H; simpl; auto.
  apply IH. destruct (truthy n); auto. now apply SetFacts.add_NoDup.
Qed.

Lemma storeSetFrom_In rows set s :
  In s (storeSetFrom set rows)
  <-> In s set
      \/ (truthy s = true
          /\ exists row, In row rows
                         /\ In s (JsObject.keys (ApiCompareRow.prices_by_store row))).
Proof.
  unfold storeSetFrom. revert set. induction rows as [|row rows IH]; intros set; simpl.
  - split; auto. intros [H|(_ & row & [] & _)]; auto.
  - rewrite IH, addNamed_In. split.
    + intros [[H|[H1 H2]]|(H1 & r & H2 & H3)]; eauto 6.
    + intros [H|(H1 & r & [->|H2] & H3)]; eauto 6.
Qed.

Lemma storeSetFrom_NoDup rows set : NoDup set -> NoDup (storeSetFrom set rows).
Proof.
  unfold storeSetFrom. revert set. induction rows as [|row rows IH]; intros set H; simpl; auto.
  apply IH. now apply addNamed_NoDup.
Qed.

Section StoresFacts.
Variable localeCompare : string -> string -> Z.

Lemma stores_unfold rows :
  stores localeCompare rows = sort localeCompare (storeSetFrom JsSet.empty rows).
Proof. reflexivity. Qed.

Lemma stores_In rows s :
  In s (stores localeCompare rows)
  <-> truthy s = true
      /\ exists row, In row rows
                     /\ In s (JsObject.keys (ApiCompareRow.prices_by_store row)).
Proof.
  rewrite stores_unfold, sort_In, storeSetFrom_In. simpl. tauto.
Qed.

Lemma stores_NoDup rows : NoDup (stores localeCompare rows).
Proof.
  rewrite stores_unfold. apply sort_NoDup, storeSetFrom_NoDup. constructor.
Qed.

Lemma stores_named rows s : In s (stores localeCompare rows) -> truthy s = true.
Proof. rewrite stores_In. tauto. Qed.

Lemma stores_priced rows row s p :
  In row rows -> truthy s = true -> priceAt row s = Some p ->
  In s (stores localeCompare rows).
Proof.
  intros Hrow Hs Hp. apply stores_In. split; auto.
  exists row. split; auto. eapply priceAt_keys; eauto.
Qed.

Lemma stores_permutation rows rows' :
  Consistent localeCompare -> Separating localeCompare ->
  Permutation rows rows' ->
  stores localeCompare rows = stores localeCompare rows'.
Proof.
  intros C S P. rewrite !stores_unfold.
  apply sort_permutation_invariant; auto.
  apply NoDup_Permutation; try (apply storeSetFrom_NoDup; constructor).
  intros s. rewrite !storeSetFrom_In. simpl.
  split; intros [[]|(H & row & Hrow & Hs)]; right; split; auto; exists row; split; auto.
  - eapply Permutation_in; eauto.
  - eapply Permutation_in; [symmetry|]; eauto.
Qed.

End StoresFacts.

(** ** The cheapest store of a row *)

Lemma FirstLowestIn_unique row l s p s' p' :
  FirstLowestIn row l s p -> FirstLowestIn row l s' p' -> s = s' /\ p = p'.
Proof.
  intros (b & a & E & Hp & Hb & Ha) (b' & a' & E' & Hp' & Hb' & Ha').
  rewrite E in E'.
  destruct (app_cons_split _ _ _ _ _ _ E') as [(-> & -> & ->)|[(c & -> & ->)|(c & -> & ->)]].
  - split; congruence.
  - exfalso.
    assert (JsNumber.lt p' p = true) by (apply (Hb' s); auto; apply in_app_iff; simpl; auto).
    assert (JsNumber.lt p' p = false) by (apply (Ha s'); auto; apply in_app_iff; simpl; auto).
    congruence.
  - exfalso.
    assert (JsNumber.lt p p' = true) by (apply (Hb s'); auto; apply in_app_iff; simpl; auto).
    assert (JsNumber.lt p p' = false) by (apply (Ha' s); auto; apply in_app_iff; simpl; auto).
    congruence.
Qed.

(** What the loop over the stores of a row has found after the stores
    [l]. *)
Lemma cheapest_loop row l :
  let best := fold_left (cheapestStep row) l (Best.mk None None None) in
  (best = Best.mk None None None /\ forall t, In t l -> priceAt row t = None)
  \/ exists s p,
       best = Best.mk (Some s) (Some p) (cellPrice row s)
       /\ FirstLowestIn row l s p.
Proof.
  induction l as [|x l IH] using rev_ind; simpl.
  - left. split; auto. intros t [].
  - rewrite fold_left_app. simpl.
    destruct IH as [[-> Hnone]|(s & p & -> & b & a & -> & Hp & Hb & Ha)];
      unfold cheapestStep; simpl.
    + destruct (priceAt row x) as [q|] eqn:Hx.
      * right. exists x, q. split; auto.
        exists l, []. repeat split; auto.
        -- intros t q' Ht Hq. rewrite (Hnone t Ht) in Hq. discriminate.
        -- intros t q' [].
      * left. split; auto. intros t Ht. apply in_app_iff in Ht as [Ht|[<-|[]]]; auto.
    + pose proof (priceAt_isPrice _ _ _ Hp) as Vp.
      destruct (priceAt row x) as [q|] eqn:Hx.
      * pose proof (priceAt_isPrice _ _ _ Hx) as Vq.
        destruct (JsNumber.lt q p) eqn:Hlt.
        -- right. exists x, q. split; auto.
           exists (b ++ s :: a), []. repeat split; auto.
           ++ intros t q' Ht Hq.
              pose proof (priceAt_isPrice _ _ _ Hq) as Vq'.
              apply in_app_iff in Ht as [Ht|[<-|Ht]].
              ** apply (NumberFacts.lt_trans q p q'); eauto.
              ** congruence.
              ** apply (NumberFacts.lt_le_trans q p q'); eauto.
           ++ intros t q' [].
        -- right. exists s, p. split; auto.
           exists b, (a ++ [x]). repeat split; auto.
           ++ now rewrite <- app_assoc.
           ++ intros t q' Ht Hq. apply in_app_iff in Ht as [Ht|[<-|[]]]; eauto.
              congruence.
      * right. exists s, p. split; auto.
        exists b, (a ++ [x]). repeat split; auto.
        -- now rewrite <- app_assoc.
        -- intros t q' Ht Hq. apply in_app_iff in Ht as [Ht|[<-|[]]]; eauto.
           congruence.
Qed.

Lemma cheapestOfRow_cases row :
  (cheapestOfRow row = Best.mk None None None
   /\ forall t, priceAt row t = None)
  \/ exists s p,
       cheapestOfRow row = Best.mk (Some s) (Some p) (cellPrice row s)
       /\ FirstLowest row s p.
Proof.
  destruct (cheapest_loop row (JsObject.keys (ApiCompareRow.prices_by_store row)))
    as [[E Hnone]|H]; auto.
  left. split; auto. intros t.
  destruct (priceAt row t) as [p|] eqn:Hp; auto.
  rewrite <- (Hnone t); eauto using priceAt_keys.
Qed.

Lemma cheapestOfRow_store row s :
  Best.bestStore (cheapestOfRow row) = Some s <-> exists p, FirstLowest row s p.
Proof.
  destruct (cheapestOfRow_cases row) as [[E Hnone]|(s' & p' & E & HF)]; rewrite E; simpl.
  - split; [discriminate|]. intros (p & b & a & _ & Hp & _).
    rewrite Hnone in Hp. discriminate.
  - split.
    + intros [= <-]. eauto.
    + intros (p & HF'). f_equal.
      now destruct (FirstLowestIn_unique _ _ _ _ _ _ HF HF').
Qed.

Lemma cheapestOfRow_price row s p :
  FirstLowest row s p ->
  cheapestOfRow row = Best.mk (Some s) (Some p) (cellPrice row s).
Proof.
  intros HF.
  destruct (cheapestOfRow_cases row) as [[E Hnone]|(s' & p' & E & HF')].
  - destruct HF as (b & a & _ & Hp & _). rewrite Hnone in Hp. discriminate.
  - destruct (FirstLowestIn_unique _ _ _ _ _ _ HF HF') as [<- <-]. exact E.
Qed.

Lemma cheapestItem_Some row item :
  cheapestItem row = Some item <->
  exists s, Best.bestStore (cheapestOfRow row) = Some s
            /\ truthy s = true /\ item = itemOf row s.
Proof.
  unfold cheapestItem.
  destruct (cheapestOfRow_cases row) as [[E Hnone]|(s' & p' & E & HF)]; rewrite E; simpl.
  - split; [discriminate|]. intros (s & H & _). discriminate.
  - assert (Hitem : GroupedItem.mk
                      (ApiCompareRow.product_key row) (ApiCompareRow.name row)
                      (ApiCompareRow.packaging_format row) (ApiCompareRow.image row)
                      s' (cellPrice row s') (Some p') = itemOf row s').
    { unfold itemOf. f_equal. destruct HF as (b & a & _ & Hp & _). now rewrite Hp. }
    rewrite Hitem.
    destruct (truthy s') eqn:T; simpl.
    + split.
      * intros [= <-]. eauto.
      * intros (s & [= <-] & _ & ->). reflexivity.
    + split; [discriminate|]. intros (s & [= <-] & T' & _). congruence.
Qed.

Lemma cheapestItem_None row :
  cheapestItem row = None <->
  Best.bestStore (cheapestOfRow row) = None
  \/ Best.bestStore (cheapestOfRow row) = Some "".
Proof.
  unfold cheapestItem.
  destruct (Best.bestStore (cheapestOfRow row)) as [s|]; [|tauto].
  destruct s; simpl; split; auto; try discriminate.
  intros [H|H]; discriminate.
Qed.

(** ** Grouping items by store *)

Lemma fold_pick pick rows byStore :
  fold_left
    (fun byStore row =>
       match pick row with
       | None => byStore
       | Some item => pushItem byStore (GroupedItem.store item) item
       end)
    rows byStore
  = pushAll (picked pick rows) byStore.
Proof.
  unfold pushAll, picked. revert byStore.
  induction rows as [|row rows IH]; intros byStore; simpl; auto.
  rewrite fold_left_app, <- IH. destruct (pick row); reflexivity.
Qed.

Lemma picked_In pick rows item :
  In item (picked pick rows) <-> exists row, In row rows /\ pick row = Some item.
Proof.
  unfold picked. rewrite in_flat_map. split.
  - intros (row & Hrow & H). exists row. split; auto.
    destruct (pick row); simpl in H; [destruct H as [->|[]]; auto|tauto].
  - intros (row & Hrow & H). exists row. split; auto. rewrite H. simpl. auto.
Qed.

(** The items of a given store among the picked ones are the items of the
    rows that pick that store, in the order of the rows. *)
Lemma picked_of_store pick (choice : ApiCompareRow.t -> option string) rows k :
  (forall row item, pick row = Some item ->
                    exists s, choice row = Some s /\ item = itemOf row s) ->
  (forall row, pick row = None -> isStore (choice row) k = false) ->
  filter (fun item => String.eqb (GroupedItem.store item) k) (picked pick rows)
  = map (fun row => itemOf row k) (filter (fun row => isStore (choice row) k) rows).
Proof.
  intros Hsome Hnone. unfold picked.
  induction rows as [|row rows IH]; simpl; auto.
  rewrite filter_app, IH. clear IH.
  destruct (pick row) as [item|] eqn:E.
  - destruct (Hsome _ _ E) as (s & Hs & ->). rewrite Hs. simpl.
    destruct (String.eqb_spec s k); simpl; auto. now subst.
  - rewrite (Hnone _ E). reflexivity.
Qed.

Lemma picked_keys pick rows :
  (forall row item, pick row = Some item ->
                    GroupedItem.product_key item = ApiCompareRow.product_key row) ->
  map GroupedItem.product_key (picked pick rows)
  = map ApiCompareRow.product_key
        (filter (fun row => match pick row with Some _ => true | None => false end) rows).
Proof.
  intros H. unfold picked. induction rows as [|row rows IH]; simpl; auto.
  rewrite map_app, IH. destruct (pick row) as [item|] eqn:E; simpl; auto.
  now rewrite (H _ _ E).
Qed.

Lemma pushItem_get_same byStore k item :
  JsMap.get k (pushItem byStore k item)
  = Some (orElse (JsMap.get k byStore) [] ++ [item]).
Proof. apply MapFacts.get_set_same. Qed.

Lemma pushItem_get_other byStore k k' item :
  k <> k' -> JsMap.get k (pushItem byStore k' item) = JsMap.get k byStore.
Proof. apply MapFacts.get_set_other. Qed.

Lemma pushAll_get items byStore k :
  JsMap.get k (pushAll items byStore)
  = match filter (fun item => String.eqb (GroupedItem.store item) k) items with
    | [] => JsMap.get k byStore
    | new => Some (orElse (JsMap.get k byStore) [] ++ new)
    end.
Proof.
  unfold pushAll. revert byStore.
  induction items as [|item items IH]; intros byStore; simpl; auto.
  rewrite IH. destruct (String.eqb_spec (GroupedItem.store item) k) as [->|N].
  - rewrite pushItem_get_same. simpl.
    destruct (filter _ items); simpl; auto.
    now rewrite <- app_assoc.
  - rewrite pushItem_get_other by congruence. reflexivity.
Qed.

Lemma pushAll_keys_NoDup items byStore :
  NoDup (map fst byStore) -> NoDup (map fst (pushAll items byStore)).
Proof.
  unfold pushAll. revert byStore.
  induction items as [|item items IH]; intros byStore H; simpl; auto.
  apply IH. now apply MapFacts.keys_set_NoDup.
Qed.

Lemma pushAll_keys_In items byStore k :
  In k (map fst (pushAll items byStore))
  <-> In k (map fst byStore) \/ exists item, In item items /\ GroupedItem.store item = k.
Proof.
  unfold pushAll. revert byStore.
  induction items as [|item items IH]; intros byStore; simpl.
  - split; auto. intros [H|(item & [] & _)]; auto.
  - rewrite IH. unfold pushItem. rewrite MapFacts.keys_set_In. split.
    + intros [[->|H]|(it & H1 & H2)]; eauto.
    + intros [H|(it & [->|H1] & H2)]; eauto.
Qed.

Lemma pushAll_keys_same items byStore :
  (forall item, In item items -> In (GroupedItem.store item) (map fst byStore)) ->
  map fst (pushAll items byStore) = map fst byStore.
Proof.
  unfold pushAll. revert byStore.
  induction items as [|item items IH]; intros byStore H; simpl; auto.
  assert (E : map fst (pushItem byStore (GroupedItem.store item) item) = map fst byStore)
    by (apply MapFacts.keys_set_has, H; simpl; auto).
  rewrite IH; auto. intros it Hit. rewrite E. apply H. simpl. auto.
Qed.

Lemma pushItem_content byStore k item :
  Permutation (List.concat (map snd (pushItem byStore k item)))
              (List.concat (map snd byStore) ++ [item]).
Proof.
  unfold pushItem. induction byStore as [|[k' v'] byStore IH]; simpl; auto.
  destruct (String.eqb k' k); simpl.
  - rewrite <- !app_assoc. apply Permutation_app_head, Permutation_app_comm.
  - rewrite IH. now rewrite app_assoc.
Qed.

Lemma pushAll_content items byStore :
  Permutation (List.concat (map snd (pushAll items byStore)))
              (List.concat (map snd byStore) ++ items).
Proof.
  unfold pushAll. revert byStore.
  induction items as [|item items IH]; intros byStore; simpl.
  - now rewrite app_nil_r.
  - rewrite IH, pushItem_content, <- app_assoc. reflexivity.
Qed.

Lemma toGroups_stores byStore : map StoreGroup.store (toGroups byStore) = map fst byStore.
Proof. unfold toGroups, JsMap.entries. rewrite map_map. reflexivity. Qed.

Lemma toGroups_In byStore g :
  In g (toGroups byStore) <-> In (StoreGroup.store g, StoreGroup.items g) byStore.
Proof.
  unfold toGroups, JsMap.entries. rewrite in_map_iff. split.
  - intros ([k v] & <- & H). exact H.
  - intros H. exists (StoreGroup.store g, StoreGroup.items g). split; auto.
    now destruct g.
Qed.

Lemma assignedKeys_toGroups byStore :
  assignedKeys (toGroups byStore)
  = map GroupedItem.product_key (List.concat (map snd byStore)).
Proof.
  unfold assignedKeys, toGroups, JsMap.entries.
  induction byStore as [|[k v] byStore IH]; simpl; auto.
  now rewrite map_app, IH.
Qed.

Lemma assignedKeys_perm groups groups' :
  Permutation groups groups' -> Permutation (assignedKeys groups) (assignedKeys groups').
Proof. apply Permutation_flat_map. Qed.

Lemma assignedKeys_nonempty groups :
  assignedKeys
    (filter (fun group => negb (Nat.eqb (List.length (StoreGroup.items group)) 0)) groups)
  = assignedKeys groups.
Proof.
  unfold assignedKeys. induction groups as [|g groups IH]; simpl; auto.
  destruct (StoreGroup.items g) eqn:E; simpl; auto. now rewrite E, IH.
Qed.

(** ** Policy A *)

Section CheapestFacts.
Variable localeCompare : string -> string -> Z.

Lemma cheapestByStore_pushAll rows :
  cheapestByStore rows = pushAll (picked cheapestItem rows) JsMap.empty.
Proof. apply fold_pick. Qed.

Lemma cheapestGroups_perm rows :
  Permutation (cheapestGroups localeCompare rows) (toGroups (cheapestByStore rows)).
Proof. apply sort_perm. Qed.

Lemma cheapestGroups_In rows g :
  In g (cheapestGroups localeCompare rows)
  <-> In (StoreGroup.store g, StoreGroup.items g) (cheapestByStore rows).
Proof. unfold cheapestGroups. now rewrite sort_In, toGroups_In. Qed.

Lemma cheapestByStore_NoDup rows : NoDup (map fst (cheapestByStore rows)).
Proof. rewrite cheapestByStore_pushAll. apply pushAll_keys_NoDup. constructor. Qed.

Lemma cheapestByStore_keys rows s :
  In s (map fst (cheapestByStore rows))
  <-> s <> "" /\ exists row, In row rows /\ Best.bestStore (cheapestOfRow row) = Some s.
Proof.
  rewrite cheapestByStore_pushAll, pushAll_keys_In. simpl. split.
  - intros [[]|(item & Hitem & <-)].
    apply picked_In in Hitem as (row & Hrow & Hpick).
    apply cheapestItem_Some in Hpick as (s & Hs & T & ->). simpl.
    split; [now apply truthy_true|eauto].
  - intros (N & row & Hrow & Hs). right. exists (itemOf row s). split; auto.
    apply picked_In. exists row. split; auto.
    apply cheapestItem_Some. exists s. repeat split; auto. now apply truthy_true.
Qed.

Lemma cheapest_picked_of_store rows k :
  k <> "" ->
  filter (fun item => String.eqb (GroupedItem.store item) k) (picked cheapestItem rows)
  = map (fun row => itemOf row k)
        (filter (fun row => isStore (Best.bestStore (cheapestOfRow row)) k) rows).
Proof.
  intros N. apply picked_of_store.
  - intros row item H. apply cheapestItem_Some in H as (s & Hs & _ & ->). eauto.
  - intros row H. apply cheapestItem_None in H as [-> | ->]; simpl; auto.
    destruct k; congruence.
Qed.

Lemma cheapestByStore_items rows k items :
  In (k, items) (cheapestByStore rows) ->
  k <> "" /\ items <> []
  /\ items = map (fun row => itemOf row k)
                 (filter (fun row => isStore (Best.bestStore (cheapestOfRow row)) k) rows).
Proof.
  intros H.
  assert (Hk : k <> "").
  { apply (cheapestByStore_keys rows k). change k with (fst (k, items)). now apply in_map. }
  apply (MapFacts.In_get _ _ _ (cheapestByStore_NoDup rows)) in H.
  rewrite cheapestByStore_pushAll, pushAll_get in H. simpl in H.
  rewrite cheapest_picked_of_store in H by auto.
  destruct (map _ _) eqn:E; [discriminate|].
  injection H as <-. repeat split; auto. discriminate.
Qed.

Lemma cheapest_assignedKeys rows :
  Permutation (assignedKeys (cheapestGroups localeCompare rows))
              (map ApiCompareRow.product_key
                   (filter (fun row => match cheapestItem row with
                                       | Some _ => true
                                       | None => false
                                       end) rows)).
Proof.
  rewrite (assignedKeys_perm _ _ (cheapestGroups_perm rows)).
  rewrite assignedKeys_toGroups, cheapestByStore_pushAll.
  rewrite (Permutation_map _ (pushAll_content _ _)). simpl.
  rewrite picked_keys; auto.
  intros row item H. apply cheapestItem_Some in H as (s & _ & _ & ->). reflexivity.
Qed.

End CheapestFacts.

(** ** Policy B *)

Lemma filter_nonempty_existsb {A : Type} (p : A -> bool) l :
  negb (Nat.eqb (List.length (filter p l)) 0) = existsb p l.
Proof.
  induction l as [|x l IH]; simpl; auto.
  destruct (p x); simpl; auto.
Qed.

(** *** Maps initialised with one value per key *)

Lemma init_keys {V : Type} (v : V) l m :
  NoDup (map fst m ++ l) ->
  fold_left (fun m store => JsMap.set store v m) l m
  = m ++ map (fun store => (store, v)) l.
Proof.
  revert m. induction l as [|s l IH]; intros m H; simpl.
  - now rewrite app_nil_r.
  - assert (Hs : ~ In s (map fst m)).
    { intros Hin. apply NoDup_remove_2 in H. apply H. apply in_app_iff. auto. }
    assert (E : JsMap.set s v m = m ++ [(s, v)]).
    { clear -Hs. induction m as [|[k' v'] m IHm]; simpl in *; auto.
      destruct (String.eqb_spec k' s); [exfalso; auto|].
      rewrite IHm; auto. }
    rewrite E, IH.
    + now rewrite <- app_assoc.
    + rewrite map_app. simpl. rewrite <- app_assoc. exact H.
Qed.

Lemma init_map {V : Type} (v : V) l :
  NoDup l ->
  fold_left (fun m store => JsMap.set store v m) l JsMap.empty
  = map (fun store => (store, v)) l.
Proof. intros H. now rewrite init_keys. Qed.

Lemma get_init {V : Type} (v : V) l s :
  JsMap.get s (map (fun store => (store, v)) l) = if in_dec string_dec s l then Some v else None.
Proof.
  induction l as [|x l IH]; simpl; auto.
  destruct (String.eqb_spec x s).
  - destruct (string_dec x s); [|contradiction]. reflexivity.
  - rewrite IH. destruct (string_dec x s); [contradiction|].
    destruct (in_dec string_dec s l); reflexivity.
Qed.

(** *** The counts *)

Lemma countRow_other row l m s :
  ~ In s l -> JsMap.get s (fold_left (countStep row) l m) = JsMap.get s m.
Proof.
  revert m. induction l as [|x l IH]; intros m H; simpl; auto.
  rewrite IH by (simpl in H; tauto).
  unfold countStep. destruct (priceAt row x); auto.
  apply MapFacts.get_set_other. simpl in H. intros ->. tauto.
Qed.

Lemma countRow_in row l m s c :
  NoDup l -> In s l -> JsMap.get s m = Some c ->
  JsMap.get s (fold_left (countStep row) l m)
  = Some (c + if hasPrice row s then 1 else 0).
Proof.
  revert m. induction l as [|x l IH]; intros m N H G; simpl; [destruct H|].
  inversion N as [|? ? Nx Nl]; subst.
  destruct (string_dec x s) as [->|D].
  - rewrite countRow_other by auto.
    unfold countStep, hasPrice. destruct (priceAt row s).
    + rewrite MapFacts.get_set_same, G. reflexivity.
    + rewrite G. f_equal. lia.
  - destruct H as [|H]; [contradiction|].
    apply IH; auto. unfold countStep. destruct (priceAt row x); auto.
    rewrite MapFacts.get_set_other; auto.
Qed.

Lemma countRows rows l m s c :
  NoDup l -> In s l -> JsMap.get s m = Some c ->
  JsMap.get s (fold_left (fun m row => fold_left (countStep row) l m) rows m)
  = Some (c + coverage rows s).
Proof.
  intros N H. revert m c. induction rows as [|row rows IH]; intros m c G; simpl.
  - rewrite G. unfold coverage. simpl. f_equal. lia.
  - rewrite (IH _ (c + if hasPrice row s then 1 else 0)).
    + f_equal. unfold coverage. simpl. destruct (hasPrice row s); simpl; lia.
    + now apply countRow_in.
Qed.

Lemma availabilityCount_get rows l s :
  NoDup l -> In s l ->
  orElse (JsMap.get s (availabilityCount rows l)) 0 = coverage rows s.
Proof.
  intros N H. unfold availabilityCount.
  change (fun m row => fold_left _ l m)
    with (fun m row => fold_left (countStep row) l m).
  rewrite (countRows rows l _ s 0); auto.
  rewrite init_map, get_init by auto.
  destruct (in_dec string_dec s l); [reflexivity|contradiction].
Qed.

(** *** The ranking *)

Lemma rankCompare_consistent count localeCompare :
  Consistent localeCompare -> Consistent (rankCompare count localeCompare).
Proof.
  intros [Ha Ht]. split.
  - intros a b. unfold rankCompare.
    destruct (Z.eqb_spec (count b - count a) 0), (Z.eqb_spec (count a - count b) 0);
      simpl; try lia. apply Ha.
  - intros a b c. unfold rankCompare.
    destruct (Z.eqb_spec (count b - count a) 0), (Z.eqb_spec (count c - count b) 0),
             (Z.eqb_spec (count c - count a) 0); simpl; try lia. apply Ht.
Qed.

Lemma rankCompare_le count localeCompare a b :
  rankCompare count localeCompare a b <= 0
  <-> count b < count a \/ (count a = count b /\ localeCompare a b <= 0).
Proof.
  unfold rankCompare. destruct (Z.eqb_spec (count b - count a) 0); simpl; lia.
Qed.

Section AvailabilityFacts.
Variable localeCompare : string -> string -> Z.

Lemma rankedStores_unfold rows l :
  rankedStores localeCompare rows l
  = sort (rankCompare (fun s => orElse (JsMap.get s (availabilityCount rows l)) 0)
                      localeCompare) l.
Proof. reflexivity. Qed.

Lemma rankedStores_perm rows l : Permutation (rankedStores localeCompare rows l) l.
Proof. rewrite rankedStores_unfold. apply sort_perm. Qed.

Lemma rankedStores_In rows l s : In s (rankedStores localeCompare rows l) <-> In s l.
Proof. rewrite rankedStores_unfold. apply sort_In. Qed.

Lemma rankedStores_NoDup rows l : NoDup l -> NoDup (rankedStores localeCompare rows l).
Proof. rewrite rankedStores_unfold. apply sort_NoDup. Qed.

Lemma rankedStores_sorted rows l :
  Consistent localeCompare -> NoDup l ->
  StronglySorted (RankedBefore localeCompare rows) (rankedStores localeCompare rows l).
Proof.
  intros C N.
  pose proof (sort_ascending _ (rankCompare_consistent
                (fun s => orElse (JsMap.get s (availabilityCount rows l)) 0)
                localeCompare C) l) as S.
  rewrite <- rankedStores_unfold in S.
  eapply StronglySorted_weaken; [|exact S].
  intros a b Ha Hb H. simpl in H. apply rankCompare_le in H.
  apply rankedStores_In in Ha, Hb.
  rewrite !availabilityCount_get in H by auto. exact H.
Qed.

(** *** The assignment *)

Lemma chosenStore_spec ranked row s :
  chosenStore ranked row = Some s <-> FirstAvailableIn row ranked s.
Proof.
  unfold chosenStore. fold (hasPrice row).
  induction ranked as [|x l IH]; simpl.
  - split; [discriminate|]. intros (b & a & E & _). now destruct b.
  - destruct (hasPrice row x) eqn:Hx.
    + split.
      * intros [= <-]. exists [], l. repeat split; auto. intros t [].
      * intros ([|y b] & a & E & Hs & Hb); simpl in E.
        -- congruence.
        -- injection E as <- _. rewrite (Hb x) in Hx by (simpl; auto). discriminate.
    + rewrite IH. split.
      * intros (b & a & -> & Hs & Hb). exists (x :: b), a. repeat split; auto.
        intros t [<-|Ht]; auto.
      * intros ([|y b] & a & E & Hs & Hb); simpl in E.
        -- injection E as <- _. congruence.
        -- injection E as <- ->. exists b, a. repeat split; auto.
           intros t Ht. apply Hb. simpl. auto.
Qed.

Lemma chosenStore_In ranked row s : chosenStore ranked row = Some s -> In s ranked.
Proof.
  intros H. apply chosenStore_spec in H as (b & a & -> & _).
  apply in_app_iff. simpl. auto.
Qed.

Lemma chosenStore_None ranked row :
  chosenStore ranked row = None <-> forall t, In t ranked -> hasPrice row t = false.
Proof.
  unfold chosenStore. fold (hasPrice row). split.
  - intros H t Ht. eapply find_none in H; eauto.
  - intros H. destruct (find (hasPrice row) ranked) eqn:E; auto.
    apply find_some in E as [E1 E2]. rewrite (H _ E1) in E2. discriminate.
Qed.

Lemma availabilityItem_Some ranked row item :
  (forall s, In s ranked -> truthy s = true) ->
  availabilityItem ranked row = Some item <->
  exists s, chosenStore ranked row = Some s /\ item = itemOf row s.
Proof.
  intros T. unfold availabilityItem.
  destruct (chosenStore ranked row) as [s|] eqn:E.
  - rewrite (T s (chosenStore_In _ _ _ E)). simpl. split.
    + intros [= <-]. eauto.
    + intros (s' & [= <-] & ->). reflexivity.
  - split; [discriminate|]. intros (s & H & _). discriminate.
Qed.

Lemma availabilityItem_None ranked row :
  (forall s, In s ranked -> truthy s = true) ->
  availabilityItem ranked row = None -> chosenStore ranked row = None.
Proof.
  intros T. unfold availabilityItem.
  destruct (chosenStore ranked row) as [s|] eqn:E; auto.
  rewrite (T s (chosenStore_In _ _ _ E)). discriminate.
Qed.

Lemma availabilityByStore_closed rows ranked :
  NoDup ranked -> (forall s, In s ranked -> truthy s = true) ->
  availabilityByStore rows ranked
  = map (fun s =>
           (s, map (fun row => itemOf row s)
                   (filter (fun row => isStore (chosenStore ranked row) s) rows)))
        ranked.
Proof.
  intros N T. unfold availabilityByStore.
  rewrite fold_pick, init_map by auto.
  set (items := picked (availabilityItem ranked) rows).
  set (m0 := map (fun store => (store, [])) ranked).
  assert (K0 : map fst m0 = ranked).
  { unfold m0. rewrite map_map. simpl. apply map_id. }
  assert (K : map fst (pushAll items m0) = ranked).
  { rewrite pushAll_keys_same; auto.
    intros item Hitem. rewrite K0.
    apply picked_In in Hitem as (row & _ & H).
    apply availabilityItem_Some in H as (s & Hs & ->); auto.
    simpl. eapply chosenStore_In; eauto. }
  rewrite (MapFacts.entries_by_keys [] (pushAll items m0)) by (now rewrite K).
  rewrite K. apply map_ext_in. intros s Hs. f_equal.
  rewrite pushAll_get. unfold items.
  rewrite (picked_of_store _ (chosenStore ranked)).
  - unfold m0. rewrite get_init.
    destruct (in_dec string_dec s ranked); [|contradiction].
    destruct (map (fun row => itemOf row s) _); reflexivity.
  - intros row item H. now apply availabilityItem_Some in H.
  - intros row H. now rewrite (availabilityItem_None _ _ T H).
Qed.

Lemma availabilityGroupsOf_closed rows l :
  NoDup l -> (forall s, In s l -> truthy s = true) ->
  let ranked := rankedStores localeCompare rows l in
  availabilityGroupsOf localeCompare rows l
  = map (fun s =>
           StoreGroup.mk s
             (map (fun row => itemOf row s)
                  (filter (fun row => isStore (chosenStore ranked row) s) rows)))
        (filter (fun s => existsb (fun row => isStore (chosenStore ranked row) s) rows)
                ranked).
Proof.
  intros N T ranked. unfold availabilityGroupsOf. fold ranked.
  rewrite availabilityByStore_closed.
  - unfold toGroups, JsMap.entries. rewrite map_map. simpl.
    rewrite filter_map_swap. f_equal. apply filter_ext. intros s. simpl.
    rewrite length_map.
    apply filter_nonempty_existsb.
  - now apply rankedStores_NoDup.
  - intros s Hs. apply T. now apply rankedStores_In in Hs.
Qed.

Lemma availability_assignedKeys rows l :
  NoDup l -> (forall s, In s l -> truthy s = true) ->
  Permutation
    (assignedKeys (availabilityGroupsOf localeCompare rows l))
    (map ApiCompareRow.product_key
         (filter (fun row =>
                    match availabilityItem (rankedStores localeCompare rows l) row with
                    | Some _ => true
                    | None => false
                    end) rows)).
Proof.
  intros N T. unfold availabilityGroupsOf.
  rewrite assignedKeys_nonempty, assignedKeys_toGroups.
  unfold availabilityByStore. rewrite fold_pick.
  rewrite (Permutation_map _ (pushAll_content _ _)).
  rewrite init_map by (now apply rankedStores_NoDup).
  assert (E : List.concat (map snd (map (fun store : string => (store, @nil GroupedItem.t))
                                   (rankedStores localeCompare rows l))) = []).
  { induction (rankedStores localeCompare rows l); simpl; auto. }
  rewrite E. simpl. rewrite picked_keys; auto.
  intros row item H. apply availabilityItem_Some in H as (s & _ & ->); auto.
  intros s Hs. apply T. now apply rankedStores_In in Hs.
Qed.

End AvailabilityFacts.

(** ** Minimum and maximum *)

Module ExtremumFacts.
Import JsNumber.

Lemma lt_infinity v : isPrice v = true -> lt v (S754_infinity false) = true.
Proof. destruct v as [[]| | |[] m e]; simpl; try discriminate; auto. Qed.

Lemma lt_neg_infinity v : isPrice v = true -> lt (S754_infinity true) v = true.
Proof. destruct v as [[]| | |[] m e]; simpl; try discriminate; auto. Qed.

Lemma minStep_price a v :
  isPrice a = true -> isPrice v = true -> minStep a v = if lt v a then v else a.
Proof.
  destruct a as [[]| | |[] m e]; simpl; try discriminate;
  destruct v as [[]| | |[] m' e']; simpl; try discriminate; auto.
Qed.

Lemma maxStep_price a v :
  isPrice a = true -> isPrice v = true -> maxStep a v = if lt a v then v else a.
Proof.
  destruct a as [[]| | |[] m e]; simpl; try discriminate;
  destruct v as [[]| | |[] m' e']; simpl; try discriminate; auto.
Qed.

Lemma minStep_infinity v : isPrice v = true -> minStep (S754_infinity false) v = v.
Proof. destruct v as [[]| | |[] m e]; simpl; try discriminate; auto. Qed.

Lemma maxStep_neg_infinity v : isPrice v = true -> maxStep (S754_infinity true) v = v.
Proof. destruct v as [[]| | |[] m e]; simpl; try discriminate; auto. Qed.

Lemma min_fold values acc :
  isPrice acc = true -> Forall (fun v => isPrice v = true) values ->
  let r := fold_left minStep values acc in
  isPrice r = true /\ (r = acc \/ In r values)
  /\ lt acc r = false /\ forall v, In v values -> lt v r = false.
Proof.
  intros Hacc Hvs. revert acc Hacc.
  induction Hvs as [|v values Hv Hvs IH]; intros acc Hacc; simpl.
  - repeat split; auto; [now apply NumberFacts.lt_irrefl|intros ? []].
  - rewrite minStep_price by auto.
    destruct (lt v acc) eqn:E.
    + destruct (IH v Hv) as (Vr & Hr & Hle & Hall).
      repeat split; auto.
      * destruct Hr; auto.
      * apply NumberFacts.lt_asym; auto.
        apply (NumberFacts.le_lt_trans _ v); auto.
      * intros v' [<-|Hv']; auto.
    + destruct (IH acc Hacc) as (Vr & Hr & Hle & Hall).
      repeat split; auto.
      * destruct Hr; auto.
      * intros v' [<-|Hv']; auto.
        apply (NumberFacts.le_trans _ acc); auto.
Qed.

Lemma max_fold values acc :
  isPrice acc = true -> Forall (fun v => isPrice v = true) values ->
  let r := fold_left maxStep values acc in
  isPrice r = true /\ (r = acc \/ In r values)
  /\ lt r acc = false /\ forall v, In v values -> lt r v = false.
Proof.
  intros Hacc Hvs. revert acc Hacc.
  induction Hvs as [|v values Hv Hvs IH]; intros acc Hacc; simpl.
  - repeat split; auto; [now apply NumberFacts.lt_irrefl|intros ? []].
  - rewrite maxStep_price by auto.
    destruct (lt acc v) eqn:E.
    + destruct (IH v Hv) as (Vr & Hr & Hle & Hall).
      repeat split; auto.
      * destruct Hr; auto.
      * apply NumberFacts.lt_asym; auto.
        apply (NumberFacts.lt_le_trans _ v); auto.
      * intros v' [<-|Hv']; auto.
    + destruct (IH acc Hacc) as (Vr & Hr & Hle & Hall).
      repeat split; auto.
      * destruct Hr; auto.
      * intros v' [<-|Hv']; auto.
        apply (NumberFacts.le_trans _ acc); auto.
Qed.

Lemma Math_min_spec v values :
  Forall (fun v => isPrice v = true) (v :: values) ->
  In (Math_min (v :: values)) (v :: values)
  /\ forall w, In w (v :: values) -> lt w (Math_min (v :: values)) = false.
Proof.
  intros H. inversion H as [|? ? Hv Hvs]; subst.
  unfold Math_min. cbn [fold_left]. rewrite minStep_infinity by auto.
  destruct (min_fold values v Hv Hvs) as (_ & Hr & Hle & Hall).
  split.
  - destruct Hr as [->|Hr]; simpl; auto.
  - intros w [<-|Hw]; auto.
Qed.

Lemma Math_max_spec v values :
  Forall (fun v => isPrice v = true) (v :: values) ->
  In (Math_max (v :: values)) (v :: values)
  /\ forall w, In w (v :: values) -> lt (Math_max (v :: values)) w = false.
Proof.
  intros H. inversion H as [|? ? Hv Hvs]; subst.
  unfold Math_max. cbn [fold_left]. rewrite maxStep_neg_infinity by auto.
  destruct (max_fold values v Hv Hvs) as (_ & Hr & Hle & Hall).
  split.
  - destruct Hr as [->|Hr]; simpl; auto.
  - intros w [<-|Hw]; auto.
Qed.

End ExtremumFacts.

(** ** The comparison table *)

Lemma numericByStore_fold row l m s :
  JsMap.get s
    (fold_left
       (fun numericByStore store =>
          match priceAt row store with
          | Some priceNumber => JsMap.set store priceNumber numericByStore
          | None => numericByStore
          end) l m)
  = match (if in_dec string_dec s l then priceAt row s else None) with
    | Some p => Some p
    | None => JsMap.get s m
    end.
Proof.
  revert m. induction l as [|x l IH]; intros m; simpl; auto.
  rewrite IH. destruct (string_dec x s) as [->|N].
  - destruct (in_dec string_dec s l).
    + destruct (priceAt row s) eqn:E; auto.
    + destruct (priceAt row s) eqn:E; auto.
      now rewrite MapFacts.get_set_same.
  - destruct (in_dec string_dec s l).
    + destruct (priceAt row s) eqn:E; auto.
      destruct (priceAt row x); auto. now rewrite MapFacts.get_set_other by auto.
    + destruct (priceAt row x); auto. now rewrite MapFacts.get_set_other by auto.
Qed.

Lemma numericByStore_get row l s :
  JsMap.get s (numericByStore l row) = if in_dec string_dec s l then priceAt row s else None.
Proof.
  unfold numericByStore. rewrite numericByStore_fold. simpl.
  destruct (in_dec string_dec s l); auto. destruct (priceAt row s); auto.
Qed.

Lemma numericByStore_NoDup row l : NoDup (map fst (numericByStore l row)).
Proof.
  unfold numericByStore.
  assert (H : NoDup (map fst (@JsMap.empty number))) by constructor.
  revert H. generalize (@JsMap.empty number).
  induction l as [|x l IH]; intros m H; simpl; auto.
  apply IH. destruct (priceAt row x); auto. now apply MapFacts.keys_set_NoDup.
Qed.

Lemma numericByStore_values row l v :
  In v (JsMap.values (numericByStore l row))
  <-> exists s, In s l /\ priceAt row s = Some v.
Proof.
  unfold JsMap.values. rewrite in_map_iff. split.
  - intros ([s v'] & <- & H). simpl.
    apply (MapFacts.In_get _ _ _ (numericByStore_NoDup row l)) in H.
    rewrite numericByStore_get in H.
    destruct (in_dec string_dec s l); [eauto|discriminate].
  - intros (s & Hs & Hp). exists (s, v). split; auto.
    apply MapFacts.get_In. rewrite numericByStore_get.
    destruct (in_dec string_dec s l); [auto|contradiction].
Qed.

Lemma numericByStore_prices row l :
  Forall (fun v => JsNumber.isPrice v = true) (JsMap.values (numericByStore l row)).
Proof.
  apply Forall_forall. intros v H.
  apply numericByStore_values in H as (s & _ & H). eapply priceAt_isPrice; eauto.
Qed.

Lemma LowestAmong_unique listed row p q :
  LowestAmong listed row p -> LowestAmong listed row q -> p = q.
Proof.
  intros [(s & Ls & Hs) Hp] [(t & Lt & Ht) Hq].
  apply NumberFacts.lt_connex; eauto using priceAt_isPrice.
Qed.

Lemma LowestAmong_ext (P Q : string -> Prop) row p :
  (forall s q, priceAt row s = Some q -> (P s <-> Q s)) ->
  LowestAmong P row p <-> LowestAmong Q row p.
Proof.
  intros H. split; intros [(s & Ls & Hs) Hp]; split.
  - exists s. split; auto. now apply (H s p).
  - intros t q Lt Ht. apply (Hp t); auto. now apply (H t q).
  - exists s. split; auto. now apply (H s p).
  - intros t q Lt Ht. apply (Hp t); auto. now apply (H t q).
Qed.

Lemma HighestAmong_ext (P Q : string -> Prop) row p :
  (forall s q, priceAt row s = Some q -> (P s <-> Q s)) ->
  HighestAmong P row p <-> HighestAmong Q row p.
Proof.
  intros H. split; intros [(s & Ls & Hs) Hp]; split.
  - exists s. split; auto. now apply (H s p).
  - intros t q Lt Ht. apply (Hp t); auto. now apply (H t q).
  - exists s. split; auto. now apply (H s p).
  - intros t q Lt Ht. apply (Hp t); auto. now apply (H t q).
Qed.

(** The values of [min] and [max] in [highlightRow]. *)
Lemma highlight_extrema row l :
  match JsMap.values (numericByStore l row) with
  | [] => forall s, In s l -> priceAt row s = None
  | values =>
      LowestAmong (fun s => In s l) row (JsNumber.Math_min values)
      /\ HighestAmong (fun s => In s l) row (JsNumber.Math_max values)
  end.
Proof.
  pose proof (numericByStore_values row l) as HV.
  pose proof (numericByStore_prices row l) as HP.
  destruct (JsMap.values (numericByStore l row)) as [|v values].
  - intros s Hs. destruct (priceAt row s) as [p|] eqn:E; auto.
    destruct (proj2 (HV p)); eauto.
  - destruct (ExtremumFacts.Math_min_spec v values HP) as [Hin Hall].
    destruct (ExtremumFacts.Math_max_spec v values HP) as [Hin' Hall'].
    split; split.
    + now apply HV.
    + intros s q Hs Hq. apply Hall, HV. eauto.
    + now apply HV.
    + intros s q Hs Hq. apply Hall', HV. eauto.
Qed.

Lemma highlightRow_stores l row : map Highlight.store (highlightRow l row) = l.
Proof.
  unfold highlightRow. rewrite map_map. simpl. apply map_id.
Qed.

Lemma highlightRow_cell l row cell :
  In cell (highlightRow l row) ->
  In (Highlight.store cell) l
  /\ (Highlight.isBest cell = true <->
      exists p, priceAt row (Highlight.store cell) = Some p
                /\ LowestAmong (fun s => In s l) row p)
  /\ (Highlight.isWorst cell = true <->
      exists p lowest,
        priceAt row (Highlight.store cell) = Some p
        /\ HighestAmong (fun s => In s l) row p
        /\ LowestAmong (fun s => In s l) row lowest
        /\ lowest <> p).
Proof.
  unfold highlightRow. intros H. apply in_map_iff in H as (s & <- & Hs). simpl.
  split; auto.
  rewrite numericByStore_get.
  destruct (in_dec string_dec s l); [|contradiction].
  pose proof (highlight_extrema row l) as HE.
  destruct (JsMap.values (numericByStore l row)) as [|v values] eqn:EV.
  - rewrite (HE s Hs). split; split; try discriminate.
    + intros (p & Hp & _). discriminate.
    + intros (p & lo & Hp & _). discriminate.
  - destruct HE as [Hmin Hmax].
    set (lo := JsNumber.Math_min (v :: values)) in *.
    set (hi := JsNumber.Math_max (v :: values)) in *.
    assert (Vlo : JsNumber.isPrice lo = true)
      by (destruct Hmin as [(t & _ & Ht) _]; eapply priceAt_isPrice; eauto).
    assert (Vhi : JsNumber.isPrice hi = true)
      by (destruct Hmax as [(t & _ & Ht) _]; eapply priceAt_isPrice; eauto).
    destruct (priceAt row s) as [p|] eqn:Hp.
    + pose proof (priceAt_isPrice _ _ _ Hp) as Vp. split; split.
      * intros E. apply NumberFacts.strictEq_true_iff in E; auto. subst p. eauto.
      * intros (p' & [= <-] & Hlow).
        apply NumberFacts.strictEq_true_iff; auto.
        eapply LowestAmong_unique; eauto.
      * intros E. apply andb_prop in E as [E1 E2].
        apply NumberFacts.strictEq_true_iff in E2; auto. subst p.
        exists hi, lo. repeat split; auto; try apply Hmax; try apply Hmin.
        intros E. rewrite E, NumberFacts.strictEq_refl in E1 by auto. discriminate.
      * intros (p' & lo' & [= <-] & Hhigh & Hlow & N).
        assert (lo' = lo) by (eapply LowestAmong_unique; eauto). subst lo'.
        assert (p = hi).
        { destruct Hhigh as [(t & Lt & Ht) Hp'], Hmax as [(t' & Lt' & Ht') Hhi].
          apply NumberFacts.lt_connex; eauto. }
        subst p. apply andb_true_intro. split.
        -- apply negb_true_iff. destruct (JsNumber.strictEq lo hi) eqn:E; auto.
           apply NumberFacts.strictEq_true_iff in E; auto. contradiction.
        -- now apply NumberFacts.strictEq_refl.
    + rewrite andb_false_r. split; split; try discriminate.
      * intros (p & H & _). discriminate.
      * intros (p & lo' & H & _). discriminate.
Qed.

(** ** The plan page *)

Lemma planBest_loop entries :
  let best :=
    fold_left
      (fun best entry =>
         match parsePrice (Some (ApiStorePrice.price (snd entry))) with
         | None => best
         | Some priceNumber =>
             match best with
             | None => Some priceNumber
             | Some b => if JsNumber.lt priceNumber b then Some priceNumber else best
             end
         end) entries None in
  match best with
  | None => forall entry, In entry entries -> entryPrice entry = None
  | Some b =>
      (exists entry, In entry entries /\ entryPrice entry = Some b)
      /\ forall entry q, In entry entries -> entryPrice entry = Some q ->
                         JsNumber.lt q b = false
  end.
Proof.
  cbv zeta. induction entries as [|x entries IH] using rev_ind.
  - intros entry [].
  - rewrite fold_left_app. cbn [fold_left].
    fold (entryPrice x).
    destruct (fold_left _ entries None) as [b|].
    + destruct IH as [(e & He & Hb) Hall].
      pose proof (parsePrice_isPrice _ _ Hb) as Vb.
      destruct (entryPrice x) as [q|] eqn:Hx.
      * pose proof (parsePrice_isPrice _ _ Hx) as Vq.
        destruct (JsNumber.lt q b) eqn:E.
        -- split.
           ++ exists x. split; auto. apply in_app_iff. simpl. auto.
           ++ intros e' q' He' Hq'. apply in_app_iff in He' as [He'|[<-|[]]].
              ** pose proof (parsePrice_isPrice _ _ Hq') as Vq'.
                 apply NumberFacts.lt_asym; auto.
                 apply (NumberFacts.lt_le_trans q b q'); eauto.
              ** rewrite Hx in Hq'. injection Hq' as <-.
                 now apply NumberFacts.lt_irrefl.
        -- split.
           ++ exists e. split; auto. apply in_app_iff. auto.
           ++ intros e' q' He' Hq'. apply in_app_iff in He' as [He'|[<-|[]]]; eauto.
              congruence.
      * split.
        -- exists e. split; auto. apply in_app_iff. auto.
        -- intros e' q' He' Hq'. apply in_app_iff in He' as [He'|[<-|[]]]; eauto.
           congruence.
    + destruct (entryPrice x) as [q|] eqn:Hx.
      * pose proof (parsePrice_isPrice _ _ Hx) as Vq. split.
        -- exists x. split; auto. apply in_app_iff. simpl. auto.
        -- intros e' q' He' Hq'. apply in_app_iff in He' as [He'|[<-|[]]].
           ++ rewrite (IH _ He') in Hq'. discriminate.
           ++ rewrite Hx in Hq'. injection Hq' as <-. now apply NumberFacts.lt_irrefl.
      * intros e He. apply in_app_iff in He as [He|[<-|[]]]; auto.
Qed.

Lemma planBest_spec row :
  match planBest row with
  | None =>
      forall entry, In entry (JsObject.entries (ApiCompareRow.prices_by_store row)) ->
                    entryPrice entry = None
  | Some b => LowestEntry row b
  end.
Proof. apply planBest_loop. Qed.

Lemma planSupermarkets_loop best entries acc :
  fold_left
    (fun supermarkets entry =>
       match parsePrice (Some (ApiStorePrice.price (snd entry))) with
       | Some priceNumber =>
           if JsNumber.strictEq priceNumber best
           then supermarkets ++ [fst entry]
           else supermarkets
       | None => supermarkets
       end) entries acc
  = acc ++ map fst (filter (atPrice best) entries).
Proof.
  revert acc. induction entries as [|x entries IH]; intros acc; cbn [fold_left filter].
  - cbn. now rewrite app_nil_r.
  - rewrite IH. unfold atPrice at 2. fold (entryPrice x).
    destruct (entryPrice x) as [q|]; auto.
    destruct (JsNumber.strictEq q best); cbn [map]; auto.
    now rewrite <- app_assoc.
Qed.

Lemma planSupermarkets_filter row best :
  planSupermarkets row (Some best)
  = map fst (filter (atPrice best) (JsObject.entries (ApiCompareRow.prices_by_store row))).
Proof. unfold planSupermarkets. now rewrite planSupermarkets_loop. Qed.

Lemma atPrice_true best entry :
  JsNumber.isPrice best = true ->
  atPrice best entry = true <-> entryPrice entry = Some best.
Proof.
  intros V. unfold atPrice. destruct (entryPrice entry) as [q|] eqn:E.
  - pose proof (parsePrice_isPrice _ _ E) as Vq.
    rewrite (NumberFacts.strictEq_true_iff q best Vq V).
    split; congruence.
  - split; discriminate.
Qed.

(** ** Runs over the heap *)

Module HeapFacts.

Lemma nth_error_last (h : Imperative.heap) o : nth_error (h ++ [o]) (List.length h) = Some o.
Proof. induction h; simpl; auto. Qed.

Lemma store_last (h : Imperative.heap) o o' : Imperative.store (List.length h) o' (h ++ [o]) = h ++ [o'].
Proof. induction h as [|x h IH]; simpl; auto. now rewrite IH. Qed.

Lemma itemsOf_last h m : Imperative.itemsOf (List.length h) (h ++ [Imperative.ItemsMap m]) = m.
Proof. unfold Imperative.itemsOf. now rewrite nth_error_last. Qed.

Lemma countsOf_last h m : Imperative.countsOf (List.length h) (h ++ [Imperative.CountMap m]) = m.
Proof. unfold Imperative.countsOf. now rewrite nth_error_last. Qed.

(** A loop whose body updates the map allocated last. *)
Lemma forEach_items {A : Type} (l : list A) (body : A -> Imperative.M unit)
      (step : JsMap.t (list GroupedItem.t) -> A -> JsMap.t (list GroupedItem.t)) h :
  (forall x m, body x (h ++ [Imperative.ItemsMap m]) = (tt, h ++ [Imperative.ItemsMap (step m x)])) ->
  forall m, Imperative.forEach l body (h ++ [Imperative.ItemsMap m]) = (tt, h ++ [Imperative.ItemsMap (fold_left step l m)]).
Proof.
  intros H. induction l as [|x l IH]; intros m; simpl; auto.
  unfold Imperative.bind. now rewrite H, IH.
Qed.

Lemma forEach_counts {A : Type} (l : list A) (body : A -> Imperative.M unit)
      (step : JsMap.t Z -> A -> JsMap.t Z) h :
  (forall x m, body x (h ++ [Imperative.CountMap m]) = (tt, h ++ [Imperative.CountMap (step m x)])) ->
  forall m, Imperative.forEach l body (h ++ [Imperative.CountMap m]) = (tt, h ++ [Imperative.CountMap (fold_left step l m)]).
Proof.
  intros H. induction l as [|x l IH]; intros m; simpl; auto.
  unfold Imperative.bind. now rewrite H, IH.
Qed.

Lemma push_body (pick : ApiCompareRow.t -> option GroupedItem.t) h row m :
  match pick row with
  | None => Imperative.ret tt
  | Some item =>
      Imperative.bind
        (Imperative.itemsGet (List.length h) (GroupedItem.store item))
        (fun old =>
           Imperative.itemsSet (List.length h) (GroupedItem.store item)
                               (orElse old [] ++ [item]))
  end (h ++ [Imperative.ItemsMap m])
  = (tt, h ++ [Imperative.ItemsMap match pick row with
                        | None => m
                        | Some item => pushItem m (GroupedItem.store item) item
                        end]).
Proof.
  destruct (pick row) as [item|]; auto.
  unfold Imperative.bind, Imperative.itemsGet, Imperative.itemsSet, pushItem.
  now rewrite itemsOf_last, store_last.
Qed.

Lemma count_body row h store m :
  match priceAt row store with
  | Some _ =>
      Imperative.bind
        (Imperative.countGet (List.length h) store)
        (fun old => Imperative.countSet (List.length h) store (orElse old 0 + 1))
  | None => Imperative.ret tt
  end (h ++ [Imperative.CountMap m])
  = (tt, h ++ [Imperative.CountMap (countStep row m store)]).
Proof.
  unfold countStep. destruct (priceAt row store); auto.
  unfold Imperative.bind, Imperative.countGet, Imperative.countSet. now rewrite countsOf_last, store_last.
Qed.

Section Runs.
Variable localeCompare : string -> string -> Z.

Lemma cheapestGroups_run rows h :
  Imperative.cheapestGroups localeCompare rows h
  = (cheapestGroups localeCompare rows,
     h ++ [Imperative.ItemsMap (cheapestByStore rows)]).
Proof.
  unfold Imperative.cheapestGroups, Imperative.bind at 1, Imperative.newItemsMap.
  unfold Imperative.bind at 1.
  rewrite (forEach_items rows _
             (fun m row => match cheapestItem row with
                           | None => m
                           | Some item => pushItem m (GroupedItem.store item) item
                           end) h).
  - unfold Imperative.bind, Imperative.itemsEntries, Imperative.ret. rewrite itemsOf_last. reflexivity.
  - intros row m. apply (push_body cheapestItem).
Qed.

Lemma availabilityGroups_run rows stores h :
  Imperative.availabilityGroups localeCompare rows stores h
  = (availabilityGroupsOf localeCompare rows stores,
     h ++ [Imperative.CountMap (availabilityCount rows stores);
           Imperative.ItemsMap (availabilityByStore rows
                       (rankedStores localeCompare rows stores))]).
Proof.
  unfold Imperative.availabilityGroups, Imperative.bind at 1, Imperative.newCountMap.
  unfold Imperative.bind at 1.
  rewrite (forEach_counts stores _ (fun m store => JsMap.set store 0 m) h).
  2:{ intros store m. unfold Imperative.countSet. now rewrite countsOf_last, store_last. }
  unfold Imperative.bind at 1.
  rewrite (forEach_counts rows _
             (fun m row => fold_left (countStep row) stores m) h).
  2:{ intros row m. apply forEach_counts. intros store m'. apply count_body. }
  unfold Imperative.bind at 1, Imperative.countSnapshot. rewrite countsOf_last.
  fold (availabilityCount rows stores).
  change (sort _ stores) with (rankedStores localeCompare rows stores).
  set (ranked := rankedStores localeCompare rows stores).
  set (h' := h ++ [Imperative.CountMap (availabilityCount rows stores)]).
  unfold Imperative.bind at 1, Imperative.newItemsMap.
  unfold Imperative.bind at 1.
  rewrite (forEach_items ranked _ (fun m store => JsMap.set store [] m) h').
  2:{ intros store m. unfold Imperative.itemsSet. now rewrite itemsOf_last, store_last. }
  unfold Imperative.bind at 1.
  rewrite (forEach_items rows _
             (fun m row => match availabilityItem ranked row with
                           | None => m
                           | Some item => pushItem m (GroupedItem.store item) item
                           end) h').
  2:{ intros row m. apply (push_body (availabilityItem ranked)). }
  unfold Imperative.bind, Imperative.itemsEntries, Imperative.ret. rewrite itemsOf_last.
  unfold h'. rewrite <- app_assoc. reflexivity.
Qed.

End Runs.
End HeapFacts.

(** ** Rows without a price, rows with the lowest price at the unnamed store *)

Lemma unpriced_cheapestItem row : Unpriced row -> cheapestItem row = None.
Proof.
  intros U. apply cheapestItem_None. left.
  destruct (cheapestOfRow_cases row) as [[E _]|(s & p & _ & b & a & _ & Hp & _)].
  - now rewrite E.
  - rewrite U in Hp. discriminate.
Qed.

Lemma unpriced_chosenStore ranked row : Unpriced row -> chosenStore ranked row = None.
Proof.
  intros U. apply chosenStore_None. intros t _. now apply hasPrice_false.
Qed.

Lemma unpriced_availabilityItem ranked row :
  Unpriced row -> availabilityItem ranked row = None.
Proof.
  intros U. unfold availabilityItem. now rewrite unpriced_chosenStore.
Qed.

Lemma lowest_at_unnamed_store row p :
  priceAt row "" = Some p ->
  (forall s q, s <> "" -> priceAt row s = Some q -> JsNumber.lt p q = true) ->
  Best.bestStore (cheapestOfRow row) = Some "".
Proof.
  intros Hp Hlow.
  destruct (cheapestOfRow_cases row) as [[_ Hnone]|(s & p' & E & b & a & Hk & Hp' & Hb & Ha)].
  - rewrite Hnone in Hp. discriminate.
  - rewrite E. simpl. f_equal.
    destruct (string_dec s "") as [|N]; auto. exfalso.
    pose proof (Hlow s p' N Hp') as L.
    pose proof (priceAt_isPrice _ _ _ Hp) as V.
    pose proof (priceAt_isPrice _ _ _ Hp') as V'.
    pose proof (priceAt_keys _ _ _ Hp) as K. rewrite Hk in K.
    apply in_app_iff in K as [K|[K|K]].
    + rewrite (NumberFacts.lt_asym p' p V' V (Hb _ _ K Hp)) in L. discriminate.
    + contradiction.
    + rewrite (Ha _ _ K Hp) in L. discriminate.
Qed.

Lemma assigned_key_picked (pick : ApiCompareRow.t -> option GroupedItem.t) rows k :
  In k (map ApiCompareRow.product_key
            (filter (fun row => match pick row with Some _ => true | None => false end) rows)) ->
  exists row, In row rows /\ ApiCompareRow.product_key row = k /\ pick row <> None.
Proof.
  intros H. apply in_map_iff in H as (row & E & H').
  apply filter_In in H' as [Hrow P].
  exists row. repeat split; auto. destruct (pick row); congruence.
Qed.

Lemma count_occ_map_filter {A : Type} (f : A -> string) (p : A -> bool) l k :
  (count_occ string_dec (map f (filter p l)) k <= count_occ string_dec (map f l) k)%nat.
Proof.
  induction l as [|x l IH]; simpl; auto.
  destruct (p x); simpl; destruct (string_dec (f x) k); lia.
Qed.



(** ** The claims *)

Section Claims.

Variable localeCompare : string -> string -> Z.

(** C1, as amended.  Policy A: the store selected for a row is the first
    store, in the order of the row's mapping, at which the row has its
    lowest parseable price; every row whose selected store has a non-empty
    name is in the group of that store; the groups are in ascending order of
    store name, no store has two groups, no group is empty, and the items of
    a group are those of the rows that selected its store, in the order of
    the rows. *)
Theorem C1_cheapest_store_grouping (rows : list ApiCompareRow.t) :
  Consistent localeCompare ->
  let groups := cheapestGroups localeCompare rows in
  let selected row := Best.bestStore (cheapestOfRow row) in
  (forall row s, selected row = Some s <-> exists p, FirstLowest row s p)
  /\ (forall row s,
         In row rows -> selected row = Some s -> s <> "" ->
         exists g, In g groups /\ StoreGroup.store g = s
                   /\ In (itemOf row s) (StoreGroup.items g))
  /\ Ascending localeCompare (map StoreGroup.store groups)
  /\ NoDup (map StoreGroup.store groups)
  /\ forall g,
       In g groups ->
       StoreGroup.store g <> ""
       /\ StoreGroup.items g <> []
       /\ StoreGroup.items g
          = map (fun row => itemOf row (StoreGroup.store g))
                (filter (fun row => isStore (selected row) (StoreGroup.store g)) rows).
Proof.
  intros C groups selected.
  assert (Hitems : forall g, In g groups ->
            StoreGroup.store g <> ""
            /\ StoreGroup.items g <> []
            /\ StoreGroup.items g
               = map (fun row => itemOf row (StoreGroup.store g))
                     (filter (fun row => isStore (selected row) (StoreGroup.store g)) rows)).
  { intros g Hg. apply cheapestGroups_In in Hg. now apply cheapestByStore_items. }
  assert (Hkeys : Permutation (map StoreGroup.store groups)
                              (map fst (cheapestByStore rows))).
  { rewrite <- toGroups_stores. apply Permutation_map, cheapestGroups_perm. }
  split; [|split; [|split; [|split]]]; auto.
  - intros row s. apply cheapestOfRow_store.
  - intros row s Hrow Hs N.
    assert (K : In s (map StoreGroup.store groups)).
    { apply (Permutation_in _ (Permutation_sym Hkeys)).
      apply cheapestByStore_keys. eauto. }
    apply in_map_iff in K as (g & <- & Hg). exists g. repeat split; auto.
    destruct (Hitems g Hg) as (_ & _ & ->).
    apply in_map_iff. exists row. split; auto.
    apply filter_In. split; auto. fold (selected row). rewrite Hs. simpl.
    apply String.eqb_refl.
  - apply StronglySorted_map.
    apply (sort_ascending
             (fun a b => localeCompare (StoreGroup.store a) (StoreGroup.store b))).
    now apply Consistent_on.
  - apply (Permutation_NoDup (Permutation_sym Hkeys)), cheapestByStore_NoDup.
Qed.

(** C2.  Policy B: the ranked stores are the stores of the rows, ordered by
    descending count of rows with a parseable price and, for equal counts,
    by ascending name; the store assigned to a row is the first ranked store
    with a parseable price for it, and a row without a parseable price has
    none; the output has one group per ranked store that was assigned to
    some row, in ranked order, with the items of the rows assigned to it in
    the order of the rows. *)
Theorem C2_availability_ranked_grouping (rows : list ApiCompareRow.t) :
  Consistent localeCompare ->
  let ranked := rankedStores localeCompare rows (stores localeCompare rows) in
  let assigned row := chosenStore ranked row in
  Permutation ranked (stores localeCompare rows)
  /\ StronglySorted (RankedBefore localeCompare rows) ranked
  /\ (forall row s, assigned row = Some s <-> FirstAvailableIn row ranked s)
  /\ (forall row, Unpriced row -> assigned row = None)
  /\ availabilityGroups localeCompare rows
     = map (fun s =>
              StoreGroup.mk s
                (map (fun row => itemOf row s)
                     (filter (fun row => isStore (assigned row) s) rows)))
           (filter (fun s => existsb (fun row => isStore (assigned row) s) rows)
                   ranked).
Proof.
  intros C ranked assigned.
  split; [|split; [|split; [|split]]].
  - apply rankedStores_perm.
  - apply rankedStores_sorted; auto. apply stores_NoDup.
  - intros row s. apply chosenStore_spec.
  - intros row U. now apply unpriced_chosenStore.
  - apply availabilityGroupsOf_closed.
    + apply stores_NoDup.
    + apply stores_named.
Qed.

(** C3, as amended.  A cell of the comparison table is flagged best exactly
    when its store has a parseable price equal to the lowest parseable price
    of the row at the named stores, and flagged worst exactly when that
    price equals the highest such price and the lowest differs from it;
    when the row has no parseable price at a named store, the cell has
    neither flag. *)
Theorem C3_best_worst_highlighting
        (rows : list ApiCompareRow.t) (row : ApiCompareRow.t) (cell : Highlight.t) :
  In row rows ->
  In cell (highlightRow (stores localeCompare rows) row) ->
  (Highlight.isBest cell = true <->
   exists p, priceAt row (Highlight.store cell) = Some p /\ LowestAmong Named row p)
  /\ (Highlight.isWorst cell = true <->
      exists p lowest,
        priceAt row (Highlight.store cell) = Some p
        /\ HighestAmong Named row p
        /\ LowestAmong Named row lowest
        /\ lowest <> p)
  /\ ((forall s, Named s -> priceAt row s = None) ->
      Highlight.isBest cell = false /\ Highlight.isWorst cell = false).
Proof.
  intros Hrow Hcell.
  destruct (highlightRow_cell _ _ _ Hcell) as (Hs & Hbest & Hworst).
  assert (X : forall s q, priceAt row s = Some q ->
                          (In s (stores localeCompare rows) <-> Named s)).
  { intros s q Hq. unfold Named. split.
    - apply stores_named.
    - intros T. eapply stores_priced; eauto. }
  assert (B : Highlight.isBest cell = true <->
              exists p, priceAt row (Highlight.store cell) = Some p
                        /\ LowestAmong Named row p).
  { rewrite Hbest. split; intros (p & Hp & L); exists p; split; auto;
      now apply (LowestAmong_ext _ _ _ _ X). }
  assert (W : Highlight.isWorst cell = true <->
              exists p lowest,
                priceAt row (Highlight.store cell) = Some p
                /\ HighestAmong Named row p
                /\ LowestAmong Named row lowest
                /\ lowest <> p).
  { rewrite Hworst. split; intros (p & lo & Hp & H & L & N); exists p, lo;
      repeat split; auto;
      try (now apply (LowestAmong_ext _ _ _ _ X));
      now apply (HighestAmong_ext _ _ _ _ X). }
  split; [exact B|split; [exact W|]].
  intros Hnone.
  assert (T : Named (Highlight.store cell)) by (eapply stores_named; eauto).
  split.
  - destruct (Highlight.isBest cell); auto.
    destruct (proj1 B eq_refl) as (p & Hp & _). rewrite Hnone in Hp; auto. discriminate.
  - destruct (Highlight.isWorst cell); auto.
    destruct (proj1 W eq_refl) as (p & lo & Hp & _). rewrite Hnone in Hp; auto. discriminate.
Qed.

(** C6.  Plan view: the best price of a row is the lowest parseable price
    among the entries of its mapping; the supermarkets are the stores of
    the entries at that price, sorted by name; when no entry has a
    parseable price there is no best price and no supermarket. *)
Theorem C6_plan_best_pick (row : ApiCompareRow.t) :
  Consistent localeCompare ->
  let planned := planRow localeCompare row in
  let entries := JsObject.entries (ApiCompareRow.prices_by_store row) in
  (forall best, PlanRow.bestPriceNumber planned = Some best <-> LowestEntry row best)
  /\ (forall best,
         PlanRow.bestPriceNumber planned = Some best ->
         Permutation (PlanRow.supermarkets planned)
                     (map fst (filter (atPrice best) entries))
         /\ forall s,
              In s (PlanRow.supermarkets planned)
              <-> exists cell, In (s, cell) entries
                               /\ entryPrice (s, cell) = Some best)
  /\ Ascending localeCompare (PlanRow.supermarkets planned)
  /\ ((forall entry, In entry entries -> entryPrice entry = None) ->
      PlanRow.bestPriceNumber planned = None /\ PlanRow.supermarkets planned = []).
Proof.
  intros C planned entries. simpl.
  pose proof (planBest_spec row) as HB.
  split; [|split; [|split]].
  - intros best. destruct (planBest row) as [b|]; split.
    + now intros [= <-].
    + intros [(e & He & Hb) Hall]. destruct HB as [(e' & He' & Hb') Hall'].
      f_equal. apply NumberFacts.lt_connex.
      * exact (parsePrice_isPrice _ _ Hb').
      * exact (parsePrice_isPrice _ _ Hb).
      * exact (Hall _ _ He' Hb').
      * exact (Hall' _ _ He Hb).
    + discriminate.
    + intros [(e & He & Hb) _]. rewrite (HB e He) in Hb. discriminate.
  - intros best E. rewrite E, planSupermarkets_filter.
    split; [apply sort_perm|].
    intros s. rewrite sort_In, in_map_iff.
    assert (V : JsNumber.isPrice best = true).
    { rewrite E in HB. destruct HB as [(e & _ & Hb) _].
      exact (parsePrice_isPrice _ _ Hb). }
    split.
    + intros ([s' cell] & <- & H). apply filter_In in H as [H1 H2].
      exists cell. split; auto. now apply atPrice_true.
    + intros (cell & H1 & H2). exists (s, cell). split; auto.
      apply filter_In. split; auto. now apply atPrice_true.
  - now apply sort_ascending.
  - intros Hnone. destruct (planBest row) as [b|]; auto.
    destruct HB as [(e & He & Hb) _]. rewrite (Hnone e He) in Hb. discriminate.
Qed.

(** C7, as amended.  In each policy a product key occurs among the items
    of all the groups at most as often as among the rows; hence, when no two
    rows have the same product key, every product key occurs at most once
    over all the groups of a policy, that is in at most one group.  A
    product key whose rows have no parseable price at any store occurs in no
    group of either policy. *)
Theorem C7_allocation_partition (rows : list ApiCompareRow.t) :
  let keys := map ApiCompareRow.product_key rows in
  let keysA := assignedKeys (cheapestGroups localeCompare rows) in
  let keysB := assignedKeys (availabilityGroups localeCompare rows) in
  (forall k, (count_occ string_dec keysA k <= count_occ string_dec keys k)%nat
             /\ (count_occ string_dec keysB k <= count_occ string_dec keys k)%nat)
  /\ (NoDup keys -> NoDup keysA /\ NoDup keysB)
  /\ forall k,
       (forall row, In row rows -> ApiCompareRow.product_key row = k -> Unpriced row) ->
       ~ In k keysA /\ ~ In k keysB.
Proof.
  intros keys keysA keysB.
  pose proof (cheapest_assignedKeys localeCompare rows) as PA.
  pose proof (availability_assignedKeys localeCompare rows _
                (stores_NoDup localeCompare rows)
                (stores_named localeCompare rows)) as PB.
  fold (availabilityGroups localeCompare rows) in PB.
  fold keysA in PA. fold keysB in PB.
  split; [|split].
  - intros k.
    rewrite (proj1 (Permutation_count_occ string_dec _ _) PA k).
    rewrite (proj1 (Permutation_count_occ string_dec _ _) PB k).
    split; apply count_occ_map_filter.
  - intros N. split.
    + apply (Permutation_NoDup (Permutation_sym PA)). now apply NoDup_map_filter.
    + apply (Permutation_NoDup (Permutation_sym PB)). now apply NoDup_map_filter.
  - intros k U. split; intros H.
    + apply (Permutation_in _ PA) in H.
      apply (assigned_key_picked cheapestItem) in H as (row & Hrow & E & H).
      apply H, unpriced_cheapestItem. now apply U.
    + apply (Permutation_in _ PB) in H.
      apply (assigned_key_picked (availabilityItem _)) in H as (row & Hrow & E & H).
      apply H, unpriced_availabilityItem. now apply U.
Qed.


(** C9.  Each policy, run on a heap in any state, returns the value
    of the corresponding function of the rows alone, so two runs on the same
    rows return the same groups whatever the heap holds; in particular a
    second run started on the heap the first one left returns the same
    groups as the first. *)
Theorem C9_determinism (rows : list ApiCompareRow.t) (h h' : Imperative.heap) :
  fst (Imperative.cheapestGroups localeCompare rows h)
  = fst (Imperative.cheapestGroups localeCompare rows h')
  /\ fst (Imperative.availabilityGroups localeCompare rows
            (stores localeCompare rows) h)
     = fst (Imperative.availabilityGroups localeCompare rows
              (stores localeCompare rows) h')
  /\ (let (first, left) := Imperative.cheapestGroups localeCompare rows h in
      fst (Imperative.cheapestGroups localeCompare rows left) = first)
  /\ (let (first, left) :=
        Imperative.availabilityGroups localeCompare rows
          (stores localeCompare rows) h in
      fst (Imperative.availabilityGroups localeCompare rows
             (stores localeCompare rows) left) = first)
  /\ fst (Imperative.cheapestGroups localeCompare rows h)
     = cheapestGroups localeCompare rows
  /\ fst (Imperative.availabilityGroups localeCompare rows
            (stores localeCompare rows) h)
     = availabilityGroups localeCompare rows.
Proof.
  rewrite !HeapFacts.cheapestGroups_run, !HeapFacts.availabilityGroups_run.
  simpl. repeat split.
Qed.

(** C10.  The empty store name is not in the list of stores, hence not
    among the ranked stores nor the groups of Policy B; and in Policy A a
    product whose rows have, at the store with the empty name, a parseable
    price strictly lower than their parseable prices at all other stores has
    its key in no group. *)
Theorem C10_empty_store_name (rows : list ApiCompareRow.t) :
  ~ In "" (stores localeCompare rows)
  /\ ~ In "" (rankedStores localeCompare rows (stores localeCompare rows))
  /\ (forall g, In g (availabilityGroups localeCompare rows) -> StoreGroup.store g <> "")
  /\ forall k,
       (forall row,
           In row rows -> ApiCompareRow.product_key row = k ->
           exists p,
             priceAt row "" = Some p
             /\ forall s q, s <> "" -> priceAt row s = Some q -> JsNumber.lt p q = true) ->
       ~ In k (assignedKeys (cheapestGroups localeCompare rows)).
Proof.
  assert (S : ~ In "" (stores localeCompare rows)).
  { intros H. apply stores_named in H. discriminate. }
  assert (R : ~ In "" (rankedStores localeCompare rows (stores localeCompare rows))).
  { intros H. now apply rankedStores_In in H. }
  split; [exact S|split; [exact R|split]].
  - intros g Hg E. apply R. rewrite <- E. unfold availabilityGroups in Hg.
    rewrite availabilityGroupsOf_closed in Hg
      by (apply stores_NoDup || apply stores_named).
    apply in_map_iff in Hg as (s & <- & Hs). simpl.
    apply filter_In in Hs. tauto.
  - intros k Hlow H.
    apply (Permutation_in _ (cheapest_assignedKeys localeCompare rows)) in H.
    apply (assigned_key_picked cheapestItem) in H as (row & Hrow & E & H).
    destruct (Hlow row Hrow E) as (p & Hp & Hq).
    apply H, cheapestItem_None. right. eapply lowest_at_unnamed_store; eauto.
Qed.

End Claims.

(** C4.  The normalizer removes every character other than a digit or a
    point and converts what remains with [parseFloat]; a missing or empty
    text, a text that is empty once cleaned and a text without a digit give
    no value; the value returned is always finite, a conversion that
    overflows giving no value; and the three texts of the specification
    give 12.5, 1250 and 9.99. *)
Theorem C4_price_normalizer_contract :
  (forall value, parsePrice (Some value) = parsePrice (Some (stripNoise value)))
  /\ (forall value,
         truthy (stripNoise value) = true ->
         parsePrice (Some value)
         = if JsNumber.isFinite (parseFloat (stripNoise value))
           then Some (parseFloat (stripNoise value))
           else None)
  /\ parsePrice None = None
  /\ parsePrice (Some "") = None
  /\ (forall value, truthy (stripNoise value) = false -> parsePrice (Some value) = None)
  /\ (forall value, hasDigit value = false -> parsePrice (Some value) = None)
  /\ (forall value x, parsePrice value = Some x -> JsNumber.isFinite x = true)
  /\ parsePrice (Some (nines 400)) = None
  /\ parsePrice (Some "$12.50") = Some (Prim2SF 12.5)
  /\ parsePrice (Some "12,50") = Some (Prim2SF 1250)
  /\ parsePrice (Some "€ 9.99") = Some (Prim2SF 9.99).
Proof.
  split; [exact parsePrice_stripped|].
  split; [exact parsePrice_cleaned|].
  split; [reflexivity|]. split; [reflexivity|].
  split.
  { intros value H. unfold parsePrice. rewrite H.
    destruct (truthy value); reflexivity. }
  split; [exact parsePrice_no_digit|].
  split; [exact parsePrice_finite|].
  repeat split; vm_compute; reflexivity.
Qed.

Lemma C4_witness :
  hasDigit "n/a" = false /\ parsePrice (Some "n/a") = None.
Proof.
  split; [reflexivity|].
  apply (proj1 (proj2 (proj2 (proj2 (proj2 (proj2 C4_price_normalizer_contract)))))).
  reflexivity.
Defined.

(** Against C5: the text "1.2.3", cleaned, is itself and has two decimal
    points, yet it has a value, 1.2. *)
Lemma C5_counterexample :
  stripNoise "1.2.3" = "1.2.3"
  /\ parsePrice (Some "1.2.3") = Some (Prim2SF 1.2)
  /\ parsePrice (Some "1.2.3") <> None.
Proof.
  split; [reflexivity|]. split; [vm_compute; reflexivity|]. vm_compute. discriminate.
Qed.

(** C5, as amended.  A text whose cleaned form does not start with a
    decimal literal (a digit, or a point followed by a digit) has no value;
    a second decimal point and everything after it are ignored, so that
    "1.2.3" has the value of "1.2". *)
Theorem C5_malformed_remainders :
  (forall value,
      startsWithLiteral (stripNoise value) = false -> parsePrice (Some value) = None)
  /\ (forall intPart fracPart rest,
         allDigits intPart = true -> allDigits fracPart = true ->
         parsePrice (Some (intPart ++ "." ++ fracPart ++ "." ++ rest)%string)
         = parsePrice (Some (intPart ++ "." ++ fracPart)%string))
  /\ parsePrice (Some "1.2.3") = parsePrice (Some "1.2")
  /\ parsePrice (Some "1.2") = Some (Prim2SF 1.2).
Proof.
  split; [exact parsePrice_no_literal|].
  split; [exact parsePrice_second_point|].
  split; vm_compute; reflexivity.
Qed.

Lemma C5_witness :
  (startsWithLiteral (stripNoise "$..5") = false /\ parsePrice (Some "$..5") = None)
  /\ (allDigits "1" = true /\ allDigits "2" = true
      /\ parsePrice (Some "1.2.3") = parsePrice (Some "1.2")).
Proof.
  split.
  - split; [reflexivity|].
    apply (proj1 C5_malformed_remainders). reflexivity.
  - split; [reflexivity|]. split; [reflexivity|].
    apply (proj1 (proj2 C5_malformed_remainders) "1" "2" "3"); reflexivity.
Defined.

(** Against C1: a row with parseable prices whose lowest one is at the store
    with the empty name is assigned to no group. *)
Lemma C1_counterexample :
  (exists p, FirstLowest unnamedStoreRow "" p)
  /\ hasPrice unnamedStoreRow "A" = true
  /\ cheapestGroups codeUnitCompare [unnamedStoreRow] = [].
Proof.
  split; [|split; vm_compute; reflexivity].
  apply cheapestOfRow_store. vm_compute. reflexivity.
Qed.

Lemma C1_witness :
  Consistent codeUnitCompare
  /\ NoDup (map StoreGroup.store (cheapestGroups codeUnitCompare sampleRows))
  /\ Ascending codeUnitCompare
               (map StoreGroup.store (cheapestGroups codeUnitCompare sampleRows)).
Proof.
  split; [exact codeUnitCompare_consistent|].
  pose proof (C1_cheapest_store_grouping codeUnitCompare sampleRows
                codeUnitCompare_consistent) as H.
  split; apply H.
Defined.

Lemma C2_witness :
  Consistent codeUnitCompare
  /\ StronglySorted (RankedBefore codeUnitCompare sampleRows)
       (rankedStores codeUnitCompare sampleRows (stores codeUnitCompare sampleRows)).
Proof.
  split; [exact codeUnitCompare_consistent|].
  apply (C2_availability_ranked_grouping codeUnitCompare sampleRows
           codeUnitCompare_consistent).
Defined.

(** Against C3: the store A is flagged best although the row has a lower
    parseable price, the one at the store with the empty name. *)
Lemma C3_counterexample :
  In (Highlight.mk "A" true false)
     (highlightRow (stores codeUnitCompare [unnamedStoreRow]) unnamedStoreRow)
  /\ exists p q,
       priceAt unnamedStoreRow "A" = Some p
       /\ priceAt unnamedStoreRow "" = Some q
       /\ JsNumber.lt q p = true.
Proof.
  split.
  - vm_compute. auto.
  - eexists. eexists. repeat split; vm_compute; reflexivity.
Qed.

Lemma C3_witness :
  let row := sampleRow "P" [("A", "3.00"); ("B", "3.00"); ("C", "5.00")] in
  let cell := Highlight.mk "C" false true in
  In row [row]
  /\ In cell (highlightRow (stores codeUnitCompare [row]) row)
  /\ (Highlight.isWorst cell = true <->
      exists p lowest,
        priceAt row (Highlight.store cell) = Some p
        /\ HighestAmong Named row p
        /\ LowestAmong Named row lowest
        /\ lowest <> p).
Proof.
  intros row cell.
  assert (Hrow : In row [row]) by (simpl; auto).
  assert (Hcell : In cell (highlightRow (stores codeUnitCompare [row]) row))
    by (vm_compute; auto).
  split; [exact Hrow|]. split; [exact Hcell|].
  apply (C3_best_worst_highlighting codeUnitCompare [row] row cell Hrow Hcell).
Defined.

Lemma C6_witness :
  Consistent codeUnitCompare
  /\ Ascending codeUnitCompare
               (PlanRow.supermarkets (planRow codeUnitCompare unnamedStoreRow)).
Proof.
  split; [exact codeUnitCompare_consistent|].
  apply (C6_plan_best_pick codeUnitCompare unnamedStoreRow codeUnitCompare_consistent).
Defined.

Lemma sampleRows_keys : NoDup (map ApiCompareRow.product_key sampleRows).
Proof.
  repeat constructor; simpl; intuition discriminate.
Qed.

Lemma C7_witness :
  NoDup (map ApiCompareRow.product_key sampleRows)
  /\ NoDup (assignedKeys (cheapestGroups codeUnitCompare sampleRows))
  /\ NoDup (assignedKeys (availabilityGroups codeUnitCompare sampleRows)).
Proof.
  split; [exact sampleRows_keys|].
  apply (proj1 (proj2 (C7_allocation_partition codeUnitCompare sampleRows))).
  exact sampleRows_keys.
Defined.




(** Against C7: with two rows of the same product key, priced at different
    stores, the key is in two groups of each policy. *)
Lemma C7_counterexample :
  outline (cheapestGroups codeUnitCompare duplicateKeyRows)
  = [("A", ["P"]); ("B", ["P"])]
  /\ outline (availabilityGroups codeUnitCompare duplicateKeyRows)
     = [("A", ["P"]); ("B", ["P"])]
  /\ ~ NoDup (assignedKeys (cheapestGroups codeUnitCompare duplicateKeyRows))
  /\ ~ NoDup (assignedKeys (availabilityGroups codeUnitCompare duplicateKeyRows)).
Proof.
  split; [vm_compute; reflexivity|]. split; [vm_compute; reflexivity|].
  split; intros N; vm_compute in N; inversion N as [|? ? Hin _]; apply Hin; simpl; auto.
Qed.

Lemma unnamedStoreRow_lowest s q :
  s <> "" -> priceAt unnamedStoreRow s = Some q ->
  JsNumber.lt (Prim2SF 1) q = true.
Proof.
  intros N H. unfold priceAt, cellPrice, unnamedStoreRow, sampleRow in H.
  cbn [ApiCompareRow.prices_by_store map fst snd JsObject.get] in H.
  destruct (String.eqb_spec "" s); [congruence|].
  destruct (String.eqb_spec "A" s).
  - vm_compute in H. injection H as <-. vm_compute. reflexivity.
  - destruct (String.eqb_spec "B" s).
    + vm_compute in H. injection H as <-. vm_compute. reflexivity.
    + discriminate.
Qed.

Lemma C10_witness :
  priceAt unnamedStoreRow "" = Some (Prim2SF 1)
  /\ ~ In "P" (assignedKeys (cheapestGroups codeUnitCompare [unnamedStoreRow])).
Proof.
  assert (P : priceAt unnamedStoreRow "" = Some (Prim2SF 1)) by (vm_compute; reflexivity).
  split; [exact P|].
  apply (proj2 (proj2 (proj2 (C10_empty_store_name codeUnitCompare [unnamedStoreRow])))).
  intros row [<-|[]] _. exists (Prim2SF 1). split; [exact P|].
  exact unnamedStoreRow_lowest.
Defined.

(** * Further properties *)

(** ** The list L1 of the home page *)

Module ListFacts.

Lemma someId_In l id : someId l id = true <-> In id (map Product.id l).
Proof.
  unfold someId. rewrite existsb_exists, in_map_iff. split.
  - intros (item & H & E). apply String.eqb_eq in E. eauto.
  - intros (item & E & H). exists item. split; auto. now apply String.eqb_eq.
Qed.

Lemma someId_false l id : someId l id = false <-> ~ In id (map Product.id l).
Proof.
  rewrite <- someId_In. destruct (someId l id); split; congruence.
Qed.

Lemma addProduct_present product current :
  In (Product.id product) (map Product.id current) ->
  addProduct product current = current.
Proof.
  intros H. unfold addProduct. apply someId_In in H. now rewrite H.
Qed.

Lemma addProduct_absent product current :
  ~ In (Product.id product) (map Product.id current) ->
  addProduct product current = current ++ [product].
Proof.
  intros H. unfold addProduct. apply someId_false in H. now rewrite H.
Qed.

Lemma addProduct_In product current :
  In (Product.id product) (map Product.id (addProduct product current)).
Proof.
  destruct (in_dec string_dec (Product.id product) (map Product.id current)) as [H|H].
  - now rewrite addProduct_present.
  - rewrite addProduct_absent by auto. rewrite map_app, in_app_iff. simpl. auto.
Qed.

Lemma addProduct_NoDup product current :
  NoDup (map Product.id current) ->
  NoDup (map Product.id (addProduct product current)).
Proof.
  intros N.
  destruct (in_dec string_dec (Product.id product) (map Product.id current)) as [H|H].
  - now rewrite addProduct_present.
  - rewrite addProduct_absent by auto. rewrite map_app. simpl.
    apply NoDup_app; auto.
    + repeat constructor. simpl. tauto.
    + intros x Hx [<-|[]]. contradiction.
Qed.

Lemma removeProduct_NoDup id current :
  NoDup (map Product.id current) ->
  NoDup (map Product.id (removeProduct id current)).
Proof. apply NoDup_map_filter. Qed.

Lemma removeProduct_In id current item :
  In item (removeProduct id current) <-> In item current /\ Product.id item <> id.
Proof.
  unfold removeProduct. rewrite filter_In, negb_true_iff.
  destruct (String.eqb_spec (Product.id item) id); split; intros [H1 H2];
    split; auto; congruence.
Qed.

Lemma removeProduct_absent id current :
  ~ In id (map Product.id current) -> removeProduct id current = current.
Proof.
  unfold removeProduct. induction current as [|item l IH]; simpl; auto.
  intros H. destruct (String.eqb_spec (Product.id item) id); simpl.
  - exfalso. auto.
  - rewrite IH; auto.
Qed.

Lemma removeProduct_gone id current :
  ~ In id (map Product.id (removeProduct id current)).
Proof.
  intros H. apply in_map_iff in H as (item & E & H).
  apply removeProduct_In in H. tauto.
Qed.

Lemma removeProduct_app id l l' :
  removeProduct id (l ++ l') = removeProduct id l ++ removeProduct id l'.
Proof. apply filter_app. Qed.

Lemma applyAction_NoDup current action :
  NoDup (map Product.id current) ->
  NoDup (map Product.id (applyAction current action)).
Proof.
  destruct action; simpl.
  - apply addProduct_NoDup.
  - apply removeProduct_NoDup.
Qed.

End ListFacts.

(** X1.  Whatever the sequence of additions and removals, no two products
    of the list L1 have the same id. *)
Theorem X1_list_ids_distinct (actions : list ListAction) :
  NoDup (map Product.id (listAfter actions)).
Proof.
  unfold listAfter.
  assert (H : NoDup (map Product.id (@nil Product.t))) by constructor.
  revert H. generalize (@nil Product.t).
  induction actions as [|a actions IH]; intros l H; simpl; auto.
  apply IH. now apply ListFacts.applyAction_NoDup.
Qed.

(** X2.  Adding a product whose id is in the list leaves the list as it is;
    otherwise the product is appended after the others.  In both cases its
    id is in the list afterwards, and adding it again changes nothing. *)
Theorem X2_addProduct_once (product : Product.t) (current : list Product.t) :
  (In (Product.id product) (map Product.id current) ->
   addProduct product current = current)
  /\ (~ In (Product.id product) (map Product.id current) ->
      addProduct product current = current ++ [product])
  /\ In (Product.id product) (map Product.id (addProduct product current))
  /\ addProduct product (addProduct product current) = addProduct product current.
Proof.
  split; [apply ListFacts.addProduct_present|].
  split; [apply ListFacts.addProduct_absent|].
  split; [apply ListFacts.addProduct_In|].
  apply ListFacts.addProduct_present, ListFacts.addProduct_In.
Qed.

(** X3.  Removing the id of a product just added undoes the addition:
    the result is the list without that id, which is the list before the
    addition when the id was new. *)
Theorem X3_remove_after_add (product : Product.t) (current : list Product.t) :
  removeProduct (Product.id product) (addProduct product current)
  = removeProduct (Product.id product) current
  /\ (~ In (Product.id product) (map Product.id current) ->
      removeProduct (Product.id product) (addProduct product current) = current).
Proof.
  assert (E : removeProduct (Product.id product) (addProduct product current)
              = removeProduct (Product.id product) current).
  { destruct (in_dec string_dec (Product.id product) (map Product.id current)) as [H|H].
    - now rewrite ListFacts.addProduct_present.
    - rewrite ListFacts.addProduct_absent by auto.
      rewrite ListFacts.removeProduct_app. unfold removeProduct at 2. simpl.
      rewrite String.eqb_refl. simpl. apply app_nil_r. }
  split; auto. intros H. rewrite E. now apply ListFacts.removeProduct_absent.
Qed.

(** X4.  After a removal no product of the list has the removed id, the
    other products are all there, and removing an id that is not in the
    list changes nothing; adding a product after removing its id puts it at
    the end of the list. *)
Theorem X4_removeProduct (id : string) (current : list Product.t) :
  ~ In id (map Product.id (removeProduct id current))
  /\ (forall item,
         In item (removeProduct id current)
         <-> In item current /\ Product.id item <> id)
  /\ (~ In id (map Product.id current) -> removeProduct id current = current)
  /\ forall product,
       Product.id product = id ->
       addProduct product (removeProduct id current)
       = removeProduct id current ++ [product].
Proof.
  split; [apply ListFacts.removeProduct_gone|].
  split; [apply ListFacts.removeProduct_In|].
  split; [apply ListFacts.removeProduct_absent|].
  intros product E. apply ListFacts.addProduct_absent. rewrite E.
  apply ListFacts.removeProduct_gone.
Qed.

Lemma string_app_assoc (a b c : string) :
  ((a ++ b) ++ c)%string = (a ++ b ++ c)%string.
Proof. induction a as [|x a IH]; simpl; congruence. Qed.

Section HomeFacts.

Variable toLowerCase : string -> string.

(** X5.  No suggestion has the id of a product of the list, so adding a
    suggestion appends it; and every entry of the response whose id is not
    in the list is suggested. *)
Theorem X5_suggestions_are_new
        (data : list ApiProduct.t) (listL1 : list Product.t) (product : Product.t) :
  (In product (suggestionsFor toLowerCase data listL1) ->
   ~ In (Product.id product) (map Product.id listL1)
   /\ addProduct product listL1 = listL1 ++ [product])
  /\ (In product (map (toProduct toLowerCase) data) ->
      ~ In (Product.id product) (map Product.id listL1) ->
      In product (suggestionsFor toLowerCase data listL1)).
Proof.
  unfold suggestionsFor. split.
  - intros H. apply filter_In in H as [_ H]. apply negb_true_iff in H.
    apply ListFacts.someId_false in H. split; auto.
    now apply ListFacts.addProduct_absent.
  - intros H N. apply filter_In. split; auto.
    apply negb_true_iff. now apply ListFacts.someId_false.
Qed.

(** X6.  The id made of a name and a packaging format does not tell them
    apart: a part of the name that follows two underscores can move to the
    packaging format, and a missing packaging format gives the id of an
    empty one.  An empty product key counts as a missing one. *)
Theorem X6_toId_collisions (name rest suffix : string) (packagingFormat : option string) :
  toId toLowerCase (name ++ "__" ++ rest)%string (Some suffix) None
  = toId toLowerCase name (Some (rest ++ "__" ++ suffix)%string) None
  /\ toId toLowerCase name None None = toId toLowerCase name (Some "") None
  /\ toId toLowerCase name packagingFormat (Some "")
     = toId toLowerCase name packagingFormat None.
Proof.
  unfold toId. simpl. repeat split.
  f_equal. rewrite !string_app_assoc. reflexivity.
Qed.

End HomeFacts.

(** ** The list restored from the local storage *)

Lemma isString_Some v : isString v = true -> exists s, v = Some (JString s).
Proof. destruct v as [[]|]; simpl; try discriminate. eauto. Qed.

Lemma thumbnailOf_not_null item : thumbnailOf item <> JNull.
Proof.
  unfold thumbnailOf. destruct (field item "thumbnail") as [[]|]; discriminate.
Qed.

Lemma restoreParsed_In parsed p :
  In p (restoreParsed parsed) ->
  exists items item,
    parsed = JArray items /\ In item items /\ isStoredProduct item = true
    /\ p = toStoredProduct item.
Proof.
  destruct parsed; simpl; try tauto.
  intros H. apply in_map_iff in H as (item & <- & H).
  apply filter_In in H as [H1 H2]. eauto 6.
Qed.

Lemma restoreListL1_In JSON_parse raw p :
  In p (restoreListL1 JSON_parse raw) ->
  exists text items item,
    raw = Some text /\ JSON_parse text = Some (JArray items)
    /\ In item items /\ isStoredProduct item = true /\ p = toStoredProduct item.
Proof.
  unfold restoreListL1. destruct raw as [text|]; simpl; [|tauto].
  destruct (truthy text); simpl; [|tauto].
  destruct (JSON_parse text) as [parsed|] eqn:E; simpl; [|tauto].
  intros H. apply restoreParsed_In in H as (items & item & -> & H1 & H2 & H3).
  exists text, items, item. auto.
Qed.

(** X7.  Every product restored from the local storage has a string for id
    and a string for name, and its thumbnail is not null; it is made of an
    object of the stored array. *)
Theorem X7_restored_products
        (JSON_parse : string -> option json) (raw : option string)
        (p : StoredProduct.t) :
  In p (restoreListL1 JSON_parse raw) ->
  (exists s, StoredProduct.id p = Some (JString s))
  /\ (exists s, StoredProduct.name p = Some (JString s))
  /\ StoredProduct.thumbnail p <> JNull
  /\ exists text items fields,
       raw = Some text /\ JSON_parse text = Some (JArray items)
       /\ In (JObject fields) items /\ p = toStoredProduct (JObject fields).
Proof.
  intros H.
  apply restoreListL1_In in H as (text & items & item & -> & E & Hin & V & ->).
  unfold isStoredProduct in V.
  apply andb_prop in V as [V Vname]. apply andb_prop in V as [_ Vid].
  split; [now apply isString_Some|].
  split; [now apply isString_Some|].
  split; [apply thumbnailOf_not_null|].
  destruct item as [| | | | |fields]; simpl in Vid; try discriminate.
  exists text, items, fields. auto.
Qed.

(** X8.  The list restored is empty when nothing is stored, when the stored
    text is empty or is not JSON, and when the stored value is not an
    array; it is never longer than the stored array, and the keys sent
    with the request are non-empty strings. *)
Theorem X8_restore_edges (JSON_parse : string -> option json) :
  restoreListL1 JSON_parse None = []
  /\ restoreListL1 JSON_parse (Some "") = []
  /\ (forall text, JSON_parse text = None -> restoreListL1 JSON_parse (Some text) = [])
  /\ (forall text parsed,
         JSON_parse text = Some parsed ->
         (forall items, parsed <> JArray items) ->
         restoreListL1 JSON_parse (Some text) = [])
  /\ (forall items,
         (List.length (restoreParsed (JArray items)) <= List.length items)%nat)
  /\ forall raw k,
       In k (requestKeys (restoreListL1 JSON_parse raw)) ->
       exists s, k = Some (JString s) /\ s <> "".
Proof.
  split; [reflexivity|]. split; [reflexivity|].
  split.
  { intros text E. unfold restoreListL1. rewrite E. now destruct (truthy text). }
  split.
  { intros text parsed E N. unfold restoreListL1. rewrite E.
    destruct (truthy text); auto.
    destruct parsed; auto. exfalso. eapply N; eauto. }
  split.
  { intros items. simpl. rewrite length_map. apply filter_length_le. }
  intros raw k H. unfold requestKeys in H.
  apply filter_In in H as [H T]. apply in_map_iff in H as (p & <- & H).
  apply restoreListL1_In in H as (text & items & item & _ & _ & _ & V & ->).
  unfold isStoredProduct in V.
  apply andb_prop in V as [V _]. apply andb_prop in V as [_ V].
  apply isString_Some in V as (s & E). simpl in *.
  exists s. split; auto. rewrite E in T. simpl in T. now apply truthy_true.
Qed.

(** ** The price normalizer, continued *)

(** X9.  Characters other than digits and points do not count, wherever
    they are: in particular a minus sign is ignored.  The value returned is
    [+0] or a positive finite number, never a negative one. *)
Theorem X9_noise_is_ignored (before noise after : string) :
  stripNoise noise = "" ->
  parsePrice (Some (before ++ noise ++ after)%string)
  = parsePrice (Some (before ++ after)%string)
  /\ forall x,
       parsePrice (Some (before ++ noise ++ after)%string) = Some x ->
       JsNumber.isPrice x = true /\ JsNumber.lt x (S754_zero false) = false.
Proof.
  intros H. split.
  - rewrite (parsePrice_stripped (before ++ noise ++ after)%string).
    rewrite (parsePrice_stripped (before ++ after)%string).
    now rewrite !stripNoise_app, H.
  - intros x Hx. apply parsePrice_isPrice in Hx. split; auto.
    destruct x as [[]| | |[] m e]; simpl in *; try discriminate; reflexivity.
Qed.

(** ** Items and groups *)

Lemma isStore_true o s : isStore o s = true <-> o = Some s.
Proof.
  unfold isStore. destruct o as [s'|]; [|split; discriminate].
  destruct (String.eqb_spec s' s); split; congruence.
Qed.

Lemma FirstLowestIn_lowest row l s p t q :
  FirstLowestIn row l s p -> In t l -> priceAt row t = Some q ->
  JsNumber.lt q p = false.
Proof.
  intros (b & a & -> & Hp & Hb & Ha) Ht Hq.
  pose proof (priceAt_isPrice _ _ _ Hp) as Vp.
  pose proof (priceAt_isPrice _ _ _ Hq) as Vq.
  apply in_app_iff in Ht as [Ht|[<-|Ht]].
  - apply NumberFacts.lt_asym; eauto.
  - rewrite Hp in Hq. injection Hq as <-. now apply NumberFacts.lt_irrefl.
  - eauto.
Qed.

Lemma priceAt_text row s p :
  priceAt row s = Some p ->
  exists text, cellPrice row s = Some text /\ parsePrice (Some text) = Some p.
Proof.
  unfold priceAt. destruct (cellPrice row s) as [text|]; [eauto|discriminate].
Qed.

Section GroupFacts.

Variable localeCompare : string -> string -> Z.

Lemma cheapest_item rows g item :
  In g (cheapestGroups localeCompare rows) -> In item (StoreGroup.items g) ->
  exists row p,
    In row rows /\ FirstLowest row (StoreGroup.store g) p
    /\ StoreGroup.store g <> "" /\ item = itemOf row (StoreGroup.store g).
Proof.
  intros Hg Hitem. apply cheapestGroups_In in Hg.
  apply cheapestByStore_items in Hg as (N & _ & E).
  rewrite E in Hitem. apply in_map_iff in Hitem as (row & <- & H).
  apply filter_In in H as [Hrow H]. apply isStore_true in H.
  apply cheapestOfRow_store in H as (p & H). eauto 7.
Qed.

Lemma availabilityGroups_closed rows :
  let ranked := rankedStores localeCompare rows (stores localeCompare rows) in
  availabilityGroups localeCompare rows
  = map (fun s =>
           StoreGroup.mk s
             (map (fun row => itemOf row s)
                  (filter (fun row => isStore (chosenStore ranked row) s) rows)))
        (filter (fun s => existsb (fun row => isStore (chosenStore ranked row) s) rows)
                ranked).
Proof.
  apply availabilityGroupsOf_closed; [apply stores_NoDup|apply stores_named].
Qed.

Lemma availability_group rows g :
  let ranked := rankedStores localeCompare rows (stores localeCompare rows) in
  In g (availabilityGroups localeCompare rows) ->
  In (StoreGroup.store g) ranked
  /\ StoreGroup.items g
     = map (fun row => itemOf row (StoreGroup.store g))
           (filter (fun row => isStore (chosenStore ranked row) (StoreGroup.store g))
                   rows).
Proof.
  intros ranked Hg. rewrite availabilityGroups_closed in Hg.
  apply in_map_iff in Hg as (s & <- & Hs). simpl.
  apply filter_In in Hs as [Hs _]. auto.
Qed.

Lemma availability_item rows g item :
  let ranked := rankedStores localeCompare rows (stores localeCompare rows) in
  In g (availabilityGroups localeCompare rows) -> In item (StoreGroup.items g) ->
  exists row,
    In row rows /\ chosenStore ranked row = Some (StoreGroup.store g)
    /\ item = itemOf row (StoreGroup.store g).
Proof.
  intros ranked Hg Hitem. apply availability_group in Hg as [_ E].
  rewrite E in Hitem. apply in_map_iff in Hitem as (row & <- & H).
  apply filter_In in H as [Hrow H]. apply isStore_true in H. eauto.
Qed.

Lemma ranked_named rows s :
  In s (rankedStores localeCompare rows (stores localeCompare rows)) ->
  truthy s = true.
Proof. intros H. apply rankedStores_In in H. eapply stores_named; eauto. Qed.

Lemma chosenStore_price rows row s :
  chosenStore (rankedStores localeCompare rows (stores localeCompare rows)) row = Some s ->
  s <> "" /\ exists p, priceAt row s = Some p.
Proof.
  intros H. split.
  - apply truthy_true. eapply ranked_named, chosenStore_In; eauto.
  - apply chosenStore_spec in H as (b & a & _ & H & _). now apply hasPrice_true.
Qed.

Lemma chosenStore_exists rows row s p :
  In row rows -> s <> "" -> priceAt row s = Some p ->
  exists s', chosenStore (rankedStores localeCompare rows (stores localeCompare rows)) row
             = Some s'.
Proof.
  intros Hrow N Hp.
  destruct (chosenStore _ row) as [s'|] eqn:E; eauto.
  exfalso. rewrite chosenStore_None in E.
  assert (H : hasPrice row s = false).
  { apply E, rankedStores_In. eapply stores_priced; eauto. now apply truthy_true. }
  apply hasPrice_false in H. congruence.
Qed.

Lemma availability_key rows k :
  In k (assignedKeys (availabilityGroups localeCompare rows))
  <-> exists row s p,
        In row rows /\ ApiCompareRow.product_key row = k
        /\ s <> "" /\ priceAt row s = Some p.
Proof.
  pose proof (availability_assignedKeys localeCompare rows _
                (stores_NoDup localeCompare rows)
                (stores_named localeCompare rows)) as PB.
  fold (availabilityGroups localeCompare rows) in PB.
  split.
  - intros H. apply (Permutation_in _ PB) in H.
    apply in_map_iff in H as (row & E & H). apply filter_In in H as [Hrow H].
    destruct (availabilityItem _ row) as [item|] eqn:EI; [|discriminate].
    apply availabilityItem_Some in EI as (s & Hs & _);
      [|intros t Ht; eapply ranked_named; eauto].
    apply chosenStore_price in Hs as (N & p & Hp). eauto 8.
  - intros (row & s & p & Hrow & E & N & Hp).
    apply (Permutation_in _ (Permutation_sym PB)).
    apply in_map_iff. exists row. split; auto.
    apply filter_In. split; auto.
    destruct (chosenStore_exists rows row s p Hrow N Hp) as (s' & Hs').
    assert (EI : availabilityItem
                   (rankedStores localeCompare rows (stores localeCompare rows)) row
                 = Some (itemOf row s')).
    { apply availabilityItem_Some; eauto. intros t Ht. eapply ranked_named; eauto. }
    now rewrite EI.
Qed.

Lemma cheapest_key rows k :
  In k (assignedKeys (cheapestGroups localeCompare rows))
  <-> exists row s,
        In row rows /\ ApiCompareRow.product_key row = k
        /\ s <> "" /\ Best.bestStore (cheapestOfRow row) = Some s.
Proof.
  pose proof (cheapest_assignedKeys localeCompare rows) as PA.
  split.
  - intros H. apply (Permutation_in _ PA) in H.
    apply in_map_iff in H as (row & E & H). apply filter_In in H as [Hrow H].
    destruct (cheapestItem row) as [item|] eqn:EI; [|discriminate].
    apply cheapestItem_Some in EI as (s & Hs & T & _).
    exists row, s. repeat split; auto. now apply truthy_true.
  - intros (row & s & Hrow & E & N & Hs).
    apply (Permutation_in _ (Permutation_sym PA)).
    apply in_map_iff. exists row. split; auto.
    apply filter_In. split; auto.
    assert (EI : cheapestItem row = Some (itemOf row s)).
    { apply cheapestItem_Some. exists s. repeat split; auto. now apply truthy_true. }
    now rewrite EI.
Qed.

(** X10.  The list of stores holds exactly the non-empty names that are
    keys of the mapping of some row, each once, in ascending order. *)
Theorem X10_store_list (rows : list ApiCompareRow.t) :
  Consistent localeCompare ->
  Ascending localeCompare (stores localeCompare rows)
  /\ NoDup (stores localeCompare rows)
  /\ forall s,
       In s (stores localeCompare rows)
       <-> s <> ""
           /\ exists row,
                In row rows
                /\ In s (JsObject.keys (ApiCompareRow.prices_by_store row)).
Proof.
  intros C. split; [|split].
  - rewrite stores_unfold. now apply sort_ascending.
  - apply stores_NoDup.
  - intros s. rewrite stores_In, truthy_true. tauto.
Qed.

(** X11.  In the groups of either policy every item carries the store of
    its group, a price text and the number parsed from that text; the store
    is one of the list of stores. *)
Theorem X11_items_are_priced
        (rows : list ApiCompareRow.t) (g : StoreGroup.t) (item : GroupedItem.t) :
  In g (cheapestGroups localeCompare rows)
  \/ In g (availabilityGroups localeCompare rows) ->
  In item (StoreGroup.items g) ->
  In (StoreGroup.store g) (stores localeCompare rows)
  /\ GroupedItem.store item = StoreGroup.store g
  /\ exists text p,
       GroupedItem.priceText item = Some text
       /\ GroupedItem.priceNumber item = Some p
       /\ parsePrice (Some text) = Some p.
Proof.
  intros [Hg|Hg] Hitem.
  - destruct (cheapest_item rows g item Hg Hitem)
      as (row & p & Hrow & (b & a & Hk & Hp & _) & N & ->).
    simpl. split; [|split; auto].
    + eapply stores_priced; eauto. now apply truthy_true.
    + destruct (priceAt_text _ _ _ Hp) as (text & Ht & Hparse).
      exists text, p. auto.
  - destruct (availability_item rows g item Hg Hitem) as (row & Hrow & Hs & ->).
    destruct (chosenStore_price _ _ _ Hs) as (N & p & Hp).
    simpl. split; [|split; auto].
    + eapply stores_priced; eauto. now apply truthy_true.
    + destruct (priceAt_text _ _ _ Hp) as (text & Ht & Hparse).
      exists text, p. auto.
Qed.

(** X12.  For rows with distinct product keys, a product that is in a group
    of both policies does not cost more in the group of the cheapest-store
    policy than in the group of the availability policy. *)
Theorem X12_cheapest_is_not_dearer
        (rows : list ApiCompareRow.t) (gA gB : StoreGroup.t)
        (itemA itemB : GroupedItem.t) :
  NoDup (map ApiCompareRow.product_key rows) ->
  In gA (cheapestGroups localeCompare rows) -> In itemA (StoreGroup.items gA) ->
  In gB (availabilityGroups localeCompare rows) -> In itemB (StoreGroup.items gB) ->
  GroupedItem.product_key itemA = GroupedItem.product_key itemB ->
  exists pA pB,
    GroupedItem.priceNumber itemA = Some pA
    /\ GroupedItem.priceNumber itemB = Some pB
    /\ JsNumber.lt pB pA = false.
Proof.
  intros N HgA HA HgB HB E.
  destruct (cheapest_item rows gA itemA HgA HA) as (row & p & Hrow & HF & _ & ->).
  destruct (availability_item rows gB itemB HgB HB) as (row' & Hrow' & Hs & ->).
  simpl in E.
  assert (row' = row) by (symmetry; eapply NoDup_map_injective_on; eauto).
  subst row'.
  destruct (chosenStore_price _ _ _ Hs) as (_ & q & Hq).
  exists p, q. simpl. repeat split; auto.
  - now destruct HF as (b & a & _ & Hp & _).
  - eapply FirstLowestIn_lowest; eauto. eapply priceAt_keys; eauto.
Qed.

(** X13.  The availability policy assigns exactly the products that have a
    parseable price at a store with a non-empty name; every product
    assigned by the cheapest-store policy is among them. *)
Theorem X13_availability_covers (rows : list ApiCompareRow.t) (k : string) :
  (In k (assignedKeys (availabilityGroups localeCompare rows))
   <-> exists row s p,
         In row rows /\ ApiCompareRow.product_key row = k
         /\ s <> "" /\ priceAt row s = Some p)
  /\ (In k (assignedKeys (cheapestGroups localeCompare rows)) ->
      In k (assignedKeys (availabilityGroups localeCompare rows))).
Proof.
  split; [apply availability_key|].
  intros H. apply cheapest_key in H as (row & s & Hrow & E & N & Hs).
  apply availability_key.
  apply cheapestOfRow_store in Hs as (p & b & a & _ & Hp & _). eauto 8.
Qed.

(** X14.  The store ranked first receives every row that has a parseable
    price there: its group, when there is one, holds the items of these
    rows, in the order of the rows. *)
Theorem X14_first_ranked_store
        (rows : list ApiCompareRow.t) (top : string) (others : list string)
        (g : StoreGroup.t) :
  rankedStores localeCompare rows (stores localeCompare rows) = top :: others ->
  (forall row, hasPrice row top = true ->
               chosenStore (top :: others) row = Some top)
  /\ (In g (availabilityGroups localeCompare rows) -> StoreGroup.store g = top ->
      StoreGroup.items g
      = map (fun row => itemOf row top) (filter (fun row => hasPrice row top) rows)).
Proof.
  intros R.
  assert (N : NoDup (top :: others)).
  { rewrite <- R. apply rankedStores_NoDup, stores_NoDup. }
  assert (F : forall row, isStore (chosenStore (top :: others) row) top
                          = hasPrice row top).
  { intros row. unfold chosenStore. simpl. fold (hasPrice row top).
    destruct (hasPrice row top) eqn:E; simpl.
    - apply String.eqb_refl.
    - destruct (find _ others) as [s|] eqn:Hf; simpl; auto.
      apply find_some in Hf as [Hs _].
      destruct (String.eqb_spec s top); auto. subst.
      inversion N; contradiction. }
  split.
  - intros row H. apply isStore_true. now rewrite F.
  - intros Hg E. apply availability_group in Hg as [_ Hitems].
    rewrite R, E in Hitems. rewrite Hitems. f_equal.
    apply filter_ext. exact F.
Qed.

(** X15.  The availability policy returns no group exactly when no row has
    a parseable price at a store with a non-empty name, and the
    cheapest-store policy exactly when no row selects a store with a
    non-empty name; so the latter returns no group whenever the former
    does. *)
Theorem X15_no_priced_products (rows : list ApiCompareRow.t) :
  (availabilityGroups localeCompare rows = []
   <-> forall row s, In row rows -> s <> "" -> priceAt row s = None)
  /\ (cheapestGroups localeCompare rows = []
      <-> forall row s, In row rows ->
                        Best.bestStore (cheapestOfRow row) = Some s -> s = "")
  /\ (availabilityGroups localeCompare rows = [] ->
      cheapestGroups localeCompare rows = []).
Proof.
  assert (B : availabilityGroups localeCompare rows = []
              <-> forall row s, In row rows -> s <> "" -> priceAt row s = None).
  { split.
    - intros E row s Hrow N.
      destruct (priceAt row s) as [p|] eqn:Hp; auto. exfalso.
      assert (H : In (ApiCompareRow.product_key row)
                     (assignedKeys (availabilityGroups localeCompare rows)))
        by (apply availability_key; eauto 8).
      rewrite E in H. destruct H.
    - intros H. destruct (availabilityGroups localeCompare rows) as [|g gs] eqn:E; auto.
      exfalso.
      assert (Hg : In g (availabilityGroups localeCompare rows))
        by (rewrite E; simpl; auto).
      pose proof Hg as Hg'. rewrite availabilityGroups_closed in Hg'.
      apply in_map_iff in Hg' as (s & <- & Hs).
      apply filter_In in Hs as [_ Hs]. apply existsb_exists in Hs as (row & Hrow & Hs).
      apply isStore_true in Hs. apply chosenStore_price in Hs as (N & p & Hp).
      rewrite (H row s Hrow N) in Hp. discriminate. }
  assert (A : cheapestGroups localeCompare rows = []
              <-> forall row s, In row rows ->
                                Best.bestStore (cheapestOfRow row) = Some s -> s = "").
  { split.
    - intros E row s Hrow Hs. destruct (string_dec s "") as [|N]; auto. exfalso.
      assert (H : In (ApiCompareRow.product_key row)
                     (assignedKeys (cheapestGroups localeCompare rows)))
        by (apply cheapest_key; eauto 8).
      rewrite E in H. destruct H.
    - intros H. destruct (cheapestGroups localeCompare rows) as [|g gs] eqn:E; auto.
      exfalso.
      assert (Hg : In g (cheapestGroups localeCompare rows))
        by (rewrite E; simpl; auto).
      apply cheapestGroups_In in Hg.
      assert (K : In (StoreGroup.store g) (map fst (cheapestByStore rows))).
      { change (StoreGroup.store g) with (fst (StoreGroup.store g, StoreGroup.items g)).
        now apply in_map. }
      apply cheapestByStore_keys in K as (N & row & Hrow & Hs).
      apply N. eapply H; eauto. }
  split; [exact B|split; [exact A|]].
  intros E. apply A. intros row s Hrow Hs.
  destruct (string_dec s "") as [|N]; auto. exfalso.
  apply cheapestOfRow_store in Hs as (p & b & a & _ & Hp & _).
  rewrite (proj1 B E row s Hrow N) in Hp. discriminate.
Qed.

End GroupFacts.

(** ** The comparison table, continued *)

(** X16.  In a row of the comparison table no cell is flagged both best and
    worst; some cell is flagged best exactly when the row has a parseable
    price at a listed store; and a cell flagged worst comes with a cell
    flagged best at another price. *)
Theorem X16_highlight_flags (stores : list string) (row : ApiCompareRow.t) :
  (forall cell, In cell (highlightRow stores row) ->
                Highlight.isBest cell && Highlight.isWorst cell = false)
  /\ ((exists cell, In cell (highlightRow stores row) /\ Highlight.isBest cell = true)
      <-> exists s, In s stores /\ hasPrice row s = true)
  /\ forall worst,
       In worst (highlightRow stores row) -> Highlight.isWorst worst = true ->
       exists best,
         In best (highlightRow stores row) /\ Highlight.isBest best = true
         /\ priceAt row (Highlight.store best) <> priceAt row (Highlight.store worst).
Proof.
  assert (Cell : forall s, In s stores ->
                 exists cell, In cell (highlightRow stores row) /\ Highlight.store cell = s).
  { intros s Hs. rewrite <- (highlightRow_stores stores row) in Hs.
    apply in_map_iff in Hs as (cell & E & H). eauto. }
  split; [|split].
  - intros cell Hcell.
    destruct (highlightRow_cell _ _ _ Hcell) as (_ & Hbest & Hworst).
    destruct (Highlight.isBest cell) eqn:EB; auto.
    destruct (Highlight.isWorst cell) eqn:EW; auto. exfalso.
    destruct (proj1 Hbest eq_refl) as (p & Hp & L).
    destruct (proj1 Hworst eq_refl) as (p' & lo & Hp' & _ & L' & N).
    rewrite Hp in Hp'. injection Hp' as <-.
    apply N. eapply LowestAmong_unique; eauto.
  - split.
    + intros (cell & Hcell & EB).
      destruct (highlightRow_cell _ _ _ Hcell) as (Hs & Hbest & _).
      destruct (proj1 Hbest EB) as (p & Hp & _).
      exists (Highlight.store cell). split; auto. apply hasPrice_true. eauto.
    + intros (s & Hs & Hp).
      pose proof (highlight_extrema row stores) as HE.
      destruct (JsMap.values (numericByStore stores row)) as [|v values].
      * apply hasPrice_true in Hp as (p & Hp). rewrite (HE s Hs) in Hp. discriminate.
      * destruct HE as [[(t & Ht & Hlow) Hall] _].
        destruct (Cell t Ht) as (cell & Hcell & E).
        exists cell. split; auto.
        apply (highlightRow_cell _ _ _ Hcell). rewrite E.
        exists (JsNumber.Math_min (v :: values)). split; auto.
        split; eauto.
  - intros worst Hworst EW.
    destruct (highlightRow_cell _ _ _ Hworst) as (_ & _ & HW).
    destruct (proj1 HW EW) as (p & lo & Hp & _ & L & N).
    destruct L as [(t & Ht & Hlow) Hall].
    destruct (Cell t Ht) as (best & Hbest & E).
    exists best. split; auto. split.
    + apply (highlightRow_cell _ _ _ Hbest). rewrite E.
      exists lo. split; auto. split; eauto.
    + rewrite E, Hlow, Hp. congruence.
Qed.

(** ** The plan page, continued *)

Section PlanFacts.

Variable localeCompare : string -> string -> Z.

(** X17.  A plan row lists no supermarket exactly when it has no best
    price; every supermarket it lists is a key of the mapping of the row;
    and the plan rows are those of the rows, one for one in the same
    order. *)
Theorem X17_plan_rows (rows : list ApiCompareRow.t) (row : ApiCompareRow.t) :
  (PlanRow.supermarkets (planRow localeCompare row) = []
   <-> PlanRow.bestPriceNumber (planRow localeCompare row) = None)
  /\ (forall s, In s (PlanRow.supermarkets (planRow localeCompare row)) ->
                In s (JsObject.keys (ApiCompareRow.prices_by_store row)))
  /\ map PlanRow.product_key (planRows localeCompare rows)
     = map ApiCompareRow.product_key rows.
Proof.
  split; [|split].
  - simpl. pose proof (planBest_spec row) as HB.
    destruct (planBest row) as [b|] eqn:E.
    + split; [|discriminate]. intros H. exfalso.
      destruct HB as [(e & He & Hb) _].
      assert (Hin : In (fst e) (sort localeCompare (planSupermarkets row (Some b)))).
      { rewrite sort_In, planSupermarkets_filter. apply in_map, filter_In.
        split; auto. apply atPrice_true; auto. exact (parsePrice_isPrice _ _ Hb). }
      rewrite H in Hin. destruct Hin.
    + split; auto.
  - intros s H. unfold planRow in H. cbn [PlanRow.supermarkets] in H.
    rewrite sort_In in H.
    destruct (planBest row) as [b|]; [|destruct H].
    rewrite planSupermarkets_filter in H.
    apply in_map_iff in H as (e & <- & H). apply filter_In in H as [H _].
    unfold JsObject.keys. now apply in_map.
  - unfold planRows. rewrite map_map. reflexivity.
Qed.

End PlanFacts.

(** ** The heap, continued *)

Section HeapFrame.

Variable localeCompare : string -> string -> Z.

(** X18.  A run of either policy leaves the objects of the heap it
    started on as they were: it only adds the maps it creates, one for the
    cheapest-store policy and two for the availability policy. *)
Theorem X18_runs_only_allocate
        (rows : list ApiCompareRow.t) (stores : list string) (h : Imperative.heap) :
  (exists byStore,
      snd (Imperative.cheapestGroups localeCompare rows h)
      = h ++ [Imperative.ItemsMap byStore])
  /\ (exists counts byStore,
         snd (Imperative.availabilityGroups localeCompare rows stores h)
         = h ++ [Imperative.CountMap counts; Imperative.ItemsMap byStore])
  /\ (forall r o,
         nth_error h r = Some o ->
         nth_error (snd (Imperative.cheapestGroups localeCompare rows h)) r = Some o
         /\ nth_error (snd (Imperative.availabilityGroups localeCompare rows stores h)) r
            = Some o).
Proof.
  rewrite HeapFacts.cheapestGroups_run, HeapFacts.availabilityGroups_run. simpl.
  split; [eauto|]. split; [eauto|].
  intros r o H.
  assert (L : (r < List.length h)%nat) by (apply nth_error_Some; congruence).
  rewrite !nth_error_app1 by auto. auto.
Qed.

End HeapFrame.

(** ** The plan page and the cheapest-store policy *)

Lemma object_get_In {V : Type} (o : JsObject.t V) k v :
  NoDup (JsObject.keys o) -> In (k, v) o -> JsObject.get o k = Some v.
Proof.
  unfold JsObject.keys. induction o as [|[k' v'] o IH]; simpl; [tauto|].
  intros N [E|H].
  - injection E as -> ->. now rewrite String.eqb_refl.
  - inversion N as [|? ? Hk No]; subst.
    destruct (String.eqb_spec k' k).
    + subst. exfalso. apply Hk. change k with (fst (k, v)). now apply in_map.
    + auto.
Qed.

Lemma object_keys_In {V : Type} (o : JsObject.t V) k :
  In k (JsObject.keys o) -> exists v, In (k, v) o.
Proof.
  unfold JsObject.keys. intros H. apply in_map_iff in H as ([k' v] & <- & H). eauto.
Qed.

Lemma entryPrice_priceAt row entry :
  NoDup (JsObject.keys (ApiCompareRow.prices_by_store row)) ->
  In entry (JsObject.entries (ApiCompareRow.prices_by_store row)) ->
  entryPrice entry = priceAt row (fst entry).
Proof.
  intros N H. destruct entry as [s cell]. unfold priceAt, cellPrice, entryPrice. simpl.
  now rewrite (object_get_In _ _ _ N H).
Qed.

Lemma LowestEntry_unique row b b' : LowestEntry row b -> LowestEntry row b' -> b = b'.
Proof.
  intros [(e & He & Hb) Hall] [(e' & He' & Hb') Hall'].
  apply NumberFacts.lt_connex.
  - exact (parsePrice_isPrice _ _ Hb).
  - exact (parsePrice_isPrice _ _ Hb').
  - exact (Hall' _ _ He Hb).
  - exact (Hall _ _ He' Hb').
Qed.

Lemma FirstLowest_LowestEntry row s p :
  NoDup (JsObject.keys (ApiCompareRow.prices_by_store row)) ->
  FirstLowest row s p ->
  LowestEntry row p
  /\ exists cell,
       In (s, cell) (JsObject.entries (ApiCompareRow.prices_by_store row))
       /\ entryPrice (s, cell) = Some p.
Proof.
  intros N HF.
  assert (Hs : exists cell,
             In (s, cell) (JsObject.entries (ApiCompareRow.prices_by_store row))
             /\ entryPrice (s, cell) = Some p).
  { destruct HF as (b & a & Hk & Hp & _).
    destruct (object_keys_In (ApiCompareRow.prices_by_store row) s) as (cell & Hc).
    - rewrite Hk. apply in_app_iff. simpl. auto.
    - exists cell. split; auto. now rewrite (entryPrice_priceAt row _ N Hc). }
  split; auto. split.
  - destruct Hs as (cell & Hc & Hp). eauto.
  - intros [t c] q Ht Hq. rewrite (entryPrice_priceAt row _ N Ht) in Hq. simpl in Hq.
    eapply FirstLowestIn_lowest; eauto. eapply priceAt_keys; eauto.
Qed.

Section PlanAndCheapest.

Variable localeCompare : string -> string -> Z.

(** X19.  For a row whose mapping has each store once, the plan page and the
    cheapest-store policy agree: the best price of the plan row is the
    price found by the policy, and the store the policy selects is one of
    the supermarkets of the plan row. *)
Theorem X19_plan_agrees_with_cheapest (row : ApiCompareRow.t) (s : string) :
  NoDup (JsObject.keys (ApiCompareRow.prices_by_store row)) ->
  Best.bestStore (cheapestOfRow row) = Some s ->
  PlanRow.bestPriceNumber (planRow localeCompare row)
  = Best.bestPrice (cheapestOfRow row)
  /\ In s (PlanRow.supermarkets (planRow localeCompare row)).
Proof.
  intros N Hs.
  apply cheapestOfRow_store in Hs as (p & HF).
  rewrite (cheapestOfRow_price _ _ _ HF).
  destruct (FirstLowest_LowestEntry row s p N HF) as (HL & cell & Hc & Hp).
  assert (E : planBest row = Some p).
  { pose proof (planBest_spec row) as HB.
    destruct (planBest row) as [b|].
    - f_equal. eapply LowestEntry_unique; eauto.
    - destruct HL as [(e & He & Hb) _]. rewrite (HB e He) in Hb. discriminate. }
  unfold planRow. cbn [PlanRow.bestPriceNumber PlanRow.supermarkets Best.bestPrice].
  split; auto.
  rewrite E, sort_In, planSupermarkets_filter.
  change s with (fst (s, cell)). apply in_map, filter_In. split; auto.
  apply atPrice_true; auto. exact (parsePrice_isPrice _ _ Hp).
Qed.

End PlanAndCheapest.

(** ** The further properties at sample inputs *)

Lemma X2_witness :
  In "milk__1l" (map Product.id sampleList)
  /\ addProduct (sampleProduct "milk__1l" "Milk 1L") sampleList = sampleList.
Proof.
  assert (H : In "milk__1l" (map Product.id sampleList)) by (simpl; auto).
  split; [exact H|].
  apply (proj1 (X2_addProduct_once (sampleProduct "milk__1l" "Milk 1L") sampleList)).
  exact H.
Defined.

Lemma X3_witness :
  ~ In "eggs__12" (map Product.id sampleList)
  /\ removeProduct "eggs__12" (addProduct (sampleProduct "eggs__12" "Eggs") sampleList)
     = sampleList.
Proof.
  assert (H : ~ In "eggs__12" (map Product.id sampleList))
    by (simpl; intuition discriminate).
  split; [exact H|].
  apply (proj2 (X3_remove_after_add (sampleProduct "eggs__12" "Eggs") sampleList)).
  exact H.
Defined.

Lemma X4_witness :
  addProduct (sampleProduct "milk__1l" "Milk") (removeProduct "milk__1l" sampleList)
  = removeProduct "milk__1l" sampleList ++ [sampleProduct "milk__1l" "Milk"].
Proof.
  apply (proj2 (proj2 (proj2 (X4_removeProduct "milk__1l" sampleList)))).
  reflexivity.
Defined.

Lemma X5_witness :
  let eggs := Product.mk "eggs__12" "eggs" (Some "12") "/file.svg" in
  In eggs (suggestionsFor (fun s => s) sampleResponse sampleList)
  /\ ~ In "eggs__12" (map Product.id sampleList)
  /\ addProduct eggs sampleList = sampleList ++ [eggs].
Proof.
  intros eggs.
  assert (H : In eggs (suggestionsFor (fun s => s) sampleResponse sampleList))
    by (vm_compute; auto).
  split; [exact H|].
  apply (proj1 (X5_suggestions_are_new (fun s => s) sampleResponse sampleList eggs)).
  exact H.
Defined.

Lemma X7_witness :
  let parse := fun _ : string => Some sampleStored in
  let milk := StoredProduct.mk (Some (JString "milk__1l")) (Some (JString "Milk"))
                               None (JString "/file.svg") in
  In milk (restoreListL1 parse (Some "stored"))
  /\ StoredProduct.thumbnail milk <> JNull.
Proof.
  intros parse milk.
  assert (H : In milk (restoreListL1 parse (Some "stored"))) by (vm_compute; auto).
  split; [exact H|].
  apply (X7_restored_products parse (Some "stored") milk H).
Defined.

Lemma X8_witness :
  let parse := fun _ : string => Some sampleStored in
  In (Some (JString "milk__1l")) (requestKeys (restoreListL1 parse (Some "stored")))
  /\ exists s, Some (JString "milk__1l") = Some (JString s) /\ s <> "".
Proof.
  intros parse.
  assert (H : In (Some (JString "milk__1l"))
                 (requestKeys (restoreListL1 parse (Some "stored"))))
    by (vm_compute; auto).
  split; [exact H|].
  apply (proj2 (proj2 (proj2 (proj2 (proj2 (X8_restore_edges parse)))))
           (Some "stored") _ H).
Defined.

Lemma X9_witness :
  stripNoise "-$" = ""
  /\ parsePrice (Some "-$5.00") = parsePrice (Some "5.00").
Proof.
  split; [reflexivity|].
  apply (X9_noise_is_ignored "" "-$" "5.00"). reflexivity.
Defined.

Lemma X10_witness :
  Consistent codeUnitCompare
  /\ Ascending codeUnitCompare (stores codeUnitCompare sampleRows).
Proof.
  split; [exact codeUnitCompare_consistent|].
  apply (X10_store_list codeUnitCompare sampleRows codeUnitCompare_consistent).
Defined.

Lemma X11_witness :
  let row := sampleRow "P2" [("A", "2"); ("B", "2.0")] in
  let g := StoreGroup.mk "A" [itemOf row "A"] in
  In g (cheapestGroups codeUnitCompare sampleRows)
  /\ In (itemOf row "A") (StoreGroup.items g)
  /\ In (StoreGroup.store g) (stores codeUnitCompare sampleRows).
Proof.
  intros row g.
  assert (Hg : In g (cheapestGroups codeUnitCompare sampleRows)) by (vm_compute; auto).
  assert (Hi : In (itemOf row "A") (StoreGroup.items g)) by (simpl; auto).
  split; [exact Hg|]. split; [exact Hi|].
  apply (X11_items_are_priced codeUnitCompare sampleRows g (itemOf row "A")
           (or_introl Hg) Hi).
Defined.

Lemma X12_witness :
  let row := sampleRow "P2" [("A", "2"); ("B", "2.0")] in
  let gA := StoreGroup.mk "A" [itemOf row "A"] in
  let gB := StoreGroup.mk "B" [ itemOf (sampleRow "P1" [("A", "$5.00"); ("B", "$3.00")]) "B";
                                itemOf row "B";
                                itemOf (sampleRow "P3" [("A", "n/a"); ("B", "4.25")]) "B" ] in
  NoDup (map ApiCompareRow.product_key sampleRows)
  /\ In gA (cheapestGroups codeUnitCompare sampleRows)
  /\ In gB (availabilityGroups codeUnitCompare sampleRows)
  /\ exists pA pB,
       GroupedItem.priceNumber (itemOf row "A") = Some pA
       /\ GroupedItem.priceNumber (itemOf row "B") = Some pB
       /\ JsNumber.lt pB pA = false.
Proof.
  intros row gA gB.
  assert (HgA : In gA (cheapestGroups codeUnitCompare sampleRows)) by (vm_compute; auto).
  assert (HA : In (itemOf row "A") (StoreGroup.items gA)) by (simpl; auto).
  assert (HgB : In gB (availabilityGroups codeUnitCompare sampleRows))
    by (vm_compute; auto).
  assert (HB : In (itemOf row "B") (StoreGroup.items gB)) by (simpl; auto).
  split; [exact sampleRows_keys|]. split; [exact HgA|]. split; [exact HgB|].
  apply (X12_cheapest_is_not_dearer codeUnitCompare sampleRows gA gB
           (itemOf row "A") (itemOf row "B") sampleRows_keys HgA HA HgB HB).
  reflexivity.
Defined.

Lemma X13_witness :
  In "P1" (assignedKeys (cheapestGroups codeUnitCompare sampleRows))
  /\ In "P1" (assignedKeys (availabilityGroups codeUnitCompare sampleRows)).
Proof.
  assert (H : In "P1" (assignedKeys (cheapestGroups codeUnitCompare sampleRows)))
    by (vm_compute; auto).
  split; [exact H|].
  apply (proj2 (X13_availability_covers codeUnitCompare sampleRows "P1")). exact H.
Defined.

Lemma X14_witness :
  rankedStores codeUnitCompare sampleRows (stores codeUnitCompare sampleRows)
  = ["B"; "A"]
  /\ forall row, hasPrice row "B" = true -> chosenStore ["B"; "A"] row = Some "B".
Proof.
  assert (R : rankedStores codeUnitCompare sampleRows (stores codeUnitCompare sampleRows)
              = ["B"; "A"]) by (vm_compute; reflexivity).
  split; [exact R|].
  apply (X14_first_ranked_store codeUnitCompare sampleRows "B" ["A"]
           (StoreGroup.mk "B" []) R).
Defined.

Lemma X15_witness :
  let rows := [sampleRow "R" [("A", "-"); ("B", "n/a")]] in
  availabilityGroups codeUnitCompare rows = []
  /\ cheapestGroups codeUnitCompare rows = [].
Proof.
  intros rows.
  assert (E : availabilityGroups codeUnitCompare rows = []) by (vm_compute; reflexivity).
  split; [exact E|].
  apply (proj2 (proj2 (X15_no_priced_products codeUnitCompare rows))). exact E.
Defined.

Lemma X16_witness :
  let row := sampleRow "P" [("A", "3.00"); ("B", "3.00"); ("C", "5.00")] in
  let cell := Highlight.mk "C" false true in
  In cell (highlightRow ["A"; "B"; "C"] row)
  /\ Highlight.isBest cell && Highlight.isWorst cell = false.
Proof.
  intros row cell.
  assert (H : In cell (highlightRow ["A"; "B"; "C"] row)) by (vm_compute; auto).
  split; [exact H|].
  apply (proj1 (X16_highlight_flags ["A"; "B"; "C"] row) cell H).
Defined.

Lemma X17_witness :
  In "" (PlanRow.supermarkets (planRow codeUnitCompare unnamedStoreRow))
  /\ In "" (JsObject.keys (ApiCompareRow.prices_by_store unnamedStoreRow)).
Proof.
  assert (H : In "" (PlanRow.supermarkets (planRow codeUnitCompare unnamedStoreRow)))
    by (vm_compute; auto).
  split; [exact H|].
  apply (proj1 (proj2 (X17_plan_rows codeUnitCompare [] unnamedStoreRow)) "" H).
Defined.

Lemma X18_witness :
  let h := [Imperative.CountMap [("A", 7)]] in
  nth_error h 0 = Some (Imperative.CountMap [("A", 7)])
  /\ nth_error (snd (Imperative.cheapestGroups codeUnitCompare sampleRows h)) 0
     = Some (Imperative.CountMap [("A", 7)]).
Proof.
  intros h.
  assert (H : nth_error h 0 = Some (Imperative.CountMap [("A", 7)])) by reflexivity.
  split; [exact H|].
  apply (proj2 (proj2 (X18_runs_only_allocate codeUnitCompare sampleRows [] h)) 0%nat _ H).
Defined.

Lemma X19_witness :
  NoDup (JsObject.keys (ApiCompareRow.prices_by_store unnamedStoreRow))
  /\ Best.bestStore (cheapestOfRow unnamedStoreRow) = Some ""
  /\ In "" (PlanRow.supermarkets (planRow codeUnitCompare unnamedStoreRow)).
Proof.
  assert (N : NoDup (JsObject.keys (ApiCompareRow.prices_by_store unnamedStoreRow)))
    by (repeat constructor; simpl; intuition discriminate).
  assert (H : Best.bestStore (cheapestOfRow unnamedStoreRow) = Some "")
    by (vm_compute; reflexivity).
  split; [exact N|]. split; [exact H|].
  apply (X19_plan_agrees_with_cheapest codeUnitCompare unnamedStoreRow "" N H).
Defined.
